(** * cognito-srp: the SRP arithmetic and encoding engine, embedded in Rocq

    The development follows the two source files of the repository:
    [src/bigIntUtils.ts] (modular arithmetic over native [bigint]) and
    [src/index.ts] (class [CognitoSRP]; the file holds the current
    [bigint] variant and the earlier [BigInteger]-object variant, embedded
    here as [CognitoSRP] and [Legacy]).

    Conventions.
    - A [bigint] is a [Z].  The operators [/] and [%] of [bigint] truncate
      towards zero: they are [Z.quot] and [Z.rem].
    - A string is a [list ascii]: a sequence of code units below 256.
    - A [Uint8Array] is a [list byte].
    - A thrown exception is the [Throw] outcome; loops carry a fuel
      argument and [OutOfFuel] is the outcome of a run that was cut short. *)

From Stdlib Require Import Ascii String DecimalString.
From Stdlib Require Import ZArith List Bool Lia Znumtheory Zpow_facts.
From Stdlib Require Import Init.Byte.
Import ListNotations.

Local Open Scope Z_scope.

(** ** JavaScript values and built-ins used by the sources *)

Module JS.

Definition str : Type := list ascii.

Definition lit (s : string) : str := list_ascii_of_string s.

(** The exceptions that the sources and the built-ins they call can throw. *)
Inductive exn : Type :=
| JsError (msg : str)
| RangeError (msg : str)
| SyntaxError
| TypeError
| InvalidCharacterError.

Inductive outcome (A : Type) : Type :=
| Return (v : A)
| Throw (e : exn)
| OutOfFuel.

Arguments Return {A} v.
Arguments Throw {A} e.
Arguments OutOfFuel {A}.

Definition bind {A B : Type} (m : outcome A) (f : A -> outcome B) : outcome B :=
  match m with
  | Return v => f v
  | Throw e => Throw e
  | OutOfFuel => OutOfFuel
  end.

Definition code (c : ascii) : Z := Z.of_N (N_of_ascii c).

(** Digit of radix 16 as [toString(16)] prints it (lower case). *)
Definition hexDigit (d : Z) : ascii :=
  nth (Z.to_nat d) (lit "0123456789abcdef") "?"%char.

(** Value of a character read as a digit of radix 16, either case. *)
Definition hexDigitValue (c : ascii) : option Z :=
  let n := code c in
  if (48 <=? n) && (n <=? 57) then Some (n - 48)
  else if (97 <=? n) && (n <=? 102) then Some (n - 87)
  else if (65 <=? n) && (n <=? 70) then Some (n - 55)
  else None.

Definition isHexDigit (c : ascii) : bool :=
  match hexDigitValue c with Some _ => true | None => false end.

(** [String.prototype.toUpperCase]; exact on code units below 128, the only
    ones it is applied to (renderings in radix 16). *)
Definition toUpperChar (c : ascii) : ascii :=
  let n := code c in
  if (97 <=? n) && (n <=? 122) then ascii_of_N (Z.to_N (n - 32)) else c.

Definition toUpperCase (s : str) : str := map toUpperChar s.

(** Line terminators and white space of the language, below code 256. *)
Definition isLineTerminator (c : ascii) : bool :=
  let n := code c in (n =? 10) || (n =? 13).

Definition isStrWhiteSpace (c : ascii) : bool :=
  let n := code c in
  (n =? 9) || (n =? 10) || (n =? 11) || (n =? 12) || (n =? 13) || (n =? 32) || (n =? 160).

(** Value of a big-endian list of radix-16 digits. *)
Definition hexValue (ds : list Z) : Z :=
  fold_left (fun acc d => acc * 16 + d) ds 0.

(** Radix-16 digits of a non-negative integer, most significant first,
    pushed in front of [acc]. *)
Fixpoint toDigits (fuel : nat) (n : Z) (acc : list Z) : list Z :=
  match fuel with
  | O => acc
  | S f => if n <? 16 then n :: acc else toDigits f (n / 16) (n mod 16 :: acc)
  end.

Definition hexDigits (n : Z) : list Z :=
  toDigits (S (Z.to_nat (Z.log2 n))) n [].

(** [n.toString(16)] for a [bigint] or an integral [number]: a minus sign
    for a negative value, then the digits of the magnitude. *)
Definition toString16 (n : Z) : str :=
  if n <? 0 then "-"%char :: map hexDigit (hexDigits (- n))
  else map hexDigit (hexDigits n).

Fixpoint span {A : Type} (p : A -> bool) (l : list A) : list A * list A :=
  match l with
  | [] => ([], [])
  | x :: r => if p x then let (a, b) := span p r in (x :: a, b) else ([], l)
  end.

Fixpoint dropWhile {A : Type} (p : A -> bool) (l : list A) : list A :=
  match l with
  | [] => []
  | x :: r => if p x then dropWhile p r else l
  end.

Definition digitsOf (s : str) : list Z :=
  map (fun c => match hexDigitValue c with Some d => d | None => 0 end) s.

(** [BigInt("0x" + s)]: hex digits, at least one, then optional white
    space; anything else is a [SyntaxError] ([None]). *)
Definition BigInt0x (s : str) : option Z :=
  let (ds, rest) := span isHexDigit s in
  match ds with
  | [] => None
  | _ => if forallb isStrWhiteSpace rest then Some (hexValue (digitsOf ds)) else None
  end.

(** [parseInt(s, 16)]; [None] is [NaN]. *)
Definition parseInt16 (s : str) : option Z :=
  let s1 := dropWhile isStrWhiteSpace s in
  let (sign, s2) :=
    match s1 with
    | c :: r => if (code c =? 45) then (-1, r) else if (code c =? 43) then (1, r) else (1, s1)
    | [] => (1, s1)
    end in
  let s3 :=
    match s2 with
    | c0 :: cx :: r => if (code c0 =? 48) && ((code cx =? 120) || (code cx =? 88)) then r else s2
    | _ => s2
    end in
  let (ds, _) := span isHexDigit s3 in
  match ds with
  | [] => None
  | _ => Some (sign * hexValue (digitsOf ds))
  end.

(** [ToInt32], the conversion applied by the bitwise operators. *)
Definition toInt32 (v : option Z) : Z :=
  match v with
  | None => 0
  | Some n => (n + 2 ^ 31) mod 2 ^ 32 - 2 ^ 31
  end.

(** [ToUint8], the conversion applied when a [Uint8Array] is filled. *)
Definition toUint8 (v : option Z) : byte :=
  match v with
  | None => x00
  | Some n => match Byte.of_N (Z.to_N (n mod 256)) with Some b => b | None => x00 end
  end.

Definition byteValue (b : byte) : Z := Z.of_N (Byte.to_N b).

(** [s.padStart(2, "0")] *)
Definition padStart2 (s : str) : str :=
  match s with
  | [] => lit "00"
  | [c] => "0"%char :: s
  | _ => s
  end.

(** [s.startsWith(p)] *)
Fixpoint startsWith (p s : str) : bool :=
  match p, s with
  | [], _ => true
  | _ :: _, [] => false
  | a :: p', b :: s' => Ascii.eqb a b && startsWith p' s'
  end.

(** [s.substring(2)] *)
Definition substring2 (s : str) : str := skipn 2 s.

(** [/^[89a-f]/i.test(s)] *)
Definition testLeading89af (s : str) : bool :=
  match s with
  | [] => false
  | c :: _ => match hexDigitValue c with Some d => 8 <=? d | None => false end
  end.

(** [s.match(/(..)/g)]: the successive pairs of characters other than line
    terminators; [None] is [null] (no match). *)
Fixpoint matchPairs (s : str) : list str :=
  match s with
  | c1 :: ((c2 :: rest) as tl) =>
      if isLineTerminator c1 || isLineTerminator c2 then matchPairs tl
      else [c1; c2] :: matchPairs rest
  | _ => []
  end.

Definition matchAllPairs (s : str) : option (list str) :=
  match matchPairs s with
  | [] => None
  | l => Some l
  end.

End JS.

Import JS.

Declare Scope js_scope.
Delimit Scope js_scope with js.
Notation "x <- m ;; k" := (bind m (fun x => k))
  (at level 61, m at next level, right associativity) : js_scope.
Local Open Scope js_scope.

(** ** src/bigIntUtils.ts *)

Module BigIntUtils.

Definition toZn (a n : Z) : outcome Z :=
  if n <? 1 then Throw (RangeError (lit "n must be > 0"))
  else
    let aZn := Z.rem a n in
    Return (if aZn <? 0 then aZn + n else aZn).

Record egcdResult : Type := { g : Z; x : Z; y : Z }.

(** The [while (a !== 0n)] loop of [eGcd], on the six loop variables. *)
Fixpoint eGcdLoop (fuel : nat) (a b x y u v : Z) : outcome egcdResult :=
  if negb (a =? 0) then
    match fuel with
    | O => OutOfFuel
    | S f =>
        let q := Z.quot b a in
        let r := Z.rem b a in
        let m := x - u * q in
        let n := y - v * q in
        eGcdLoop f r a u v m n
    end
  else Return {| g := b; x := x; y := y |}.

Definition eGcd (fuel : nat) (a b : Z) : outcome egcdResult :=
  if (a <? 1) || (b <? 1) then Throw (RangeError (lit "a and b must be > 0"))
  else eGcdLoop fuel a b 0 1 1 0.

Definition modInv (fuel : nat) (a n : Z) : outcome Z :=
  a' <- toZn a n ;;
  egcd <- eGcd fuel a' n ;;
  if negb (g egcd =? 1) then Throw (RangeError [])
  else toZn (x egcd) n.

(** The [while (y > 0)] loop of [modPow]. *)
Fixpoint modPowLoop (fuel : nat) (r y x m : Z) : outcome Z :=
  if y >? 0 then
    match fuel with
    | O => OutOfFuel
    | S f =>
        let r' := if Z.rem y 2 =? 1 then Z.rem (r * x) m else r in
        modPowLoop f r' (Z.quot y 2) (Z.rem (x ^ 2) m) m
    end
  else Return r.

(** The recursive call for a negative exponent takes one unit of fuel. *)
Fixpoint modPow (fuel : nat) (x y m : Z) : outcome Z :=
  if m <? 1 then Throw (RangeError (lit "n must be > 0"))
  else if m =? 1 then Return 0
  else
    x1 <- toZn x m ;;
    if y <? 0 then
      match fuel with
      | O => OutOfFuel
      | S f =>
          p <- modPow f x1 (if y >=? 0 then y else - y) m ;;
          modInv f p m
      end
    else modPowLoop fuel 1 y x1 m.

End BigIntUtils.

Import BigIntUtils.

(** ** External collaborators of [src/index.ts]

    SHA-256 (plain, or keyed when a secret is given), the text encoder and
    the Base64 codecs come from the platform and from imported packages;
    the engine is parametric in them. *)

Inductive SourceData : Type :=
| SDString (s : str)
| SDBytes (b : list byte).

Class Externals : Type := {
  (** [new Sha256(secret).update(data).digestSync()] *)
  sha256 : option SourceData -> SourceData -> list byte;
  (** [new TextEncoder().encode(s)] *)
  encode : str -> list byte;
  (** [atob(s)]; [None] when it throws *)
  atob : str -> option str;
  (** [btoa(s)] on a string of code units below 256 *)
  btoa : str -> str
}.

(** The fields of a [Date] read by [createTimestamp]. *)
Record Date : Type := {
  getUTCDay : Z;
  getUTCMonth : Z;
  getUTCDate : Z;
  getUTCHours : Z;
  getUTCMinutes : Z;
  getUTCSeconds : Z;
  getUTCFullYear : Z
}.

(** ** src/index.ts, the [bigint] variant of [CognitoSRP] *)

Module CognitoSRP.

Definition INIT_N : str :=
  lit "FFFFFFFFFFFFFFFFC90FDAA22168C234C4C6628B80DC1CD1" ++
  lit "29024E088A67CC74020BBEA63B139B22514A08798E3404DD" ++
  lit "EF9519B3CD3A431B302B0A6DF25F14374FE1356D6D51C245" ++
  lit "E485B576625E7EC6F44C42E9A637ED6B0BFF5CB6F406B7ED" ++
  lit "EE386BFB5A899FA5AE9F24117C4B1FE649286651ECE45B3D" ++
  lit "C2007CB8A163BF0598DA48361C55D39A69163FA8FD24CF5F" ++
  lit "83655D23DCA3AD961C62F356208552BB9ED529077096966D" ++
  lit "670C354E4ABC9804F1746C08CA18217C32905E462E36CE3B" ++
  lit "E39E772C180E86039B2783A2EC07A28FB5C55DF06F4C52C9" ++
  lit "DE2BCBF6955817183995497CEA956AE515D2261898FA0510" ++
  lit "15728E5A8AAAC42DAD33170D04507A33A85521ABDF1CBA64" ++
  lit "ECFB850458DBEF0A8AEA71575D060C7DB3970F85A6E1E4C7" ++
  lit "ABF5AE8CDB0933D71E8C94E04A25619DCEE3D2261AD2EE6B" ++
  lit "F12FFA06D98A0864D87602733EC86A64521F2B18177B200C" ++
  lit "BBE117577A615D6C770988C0BAD946E208E24FA074E5AB31" ++
  lit "43DB5BFCE0FD108E4B82D120A93AD2CAFFFFFFFFFFFFFFFF".

(** [BigInt(`0x${this.INIT_N}`)] *)
Definition N : Z :=
  Eval vm_compute in
    match BigInt0x INIT_N with Some n => n | None => 0 end.

Definition g : Z := 2.

(** The mutable fields of an instance, [undefined] until assigned, with
    the constructor's argument and the multiplier [k] fixed at
    construction. *)
Record engine : Type := {
  userPoolName : str;
  k : Z;
  a : option Z;
  A : option Z;
  timestamp : option str
}.

Record challengeParameters : Type := {
  USER_ID_FOR_SRP : str;
  SALT : str;
  SECRET_BLOCK : str;
  SRP_B : str
}.

Definition fromOption {X : Type} (e : exn) (o : option X) : outcome X :=
  match o with
  | Some v => Return v
  | None => Throw e
  end.

Definition getBytesFromHex (encoded : str) : outcome (list byte) :=
  match matchAllPairs encoded with
  | None => Throw (JsError (lit "Invalid Hex String."))
  | Some matchArray => Return (map (fun hex => toUint8 (parseInt16 hex)) matchArray)
  end.

Definition getHexFromBytes (bytes : list byte) : str :=
  concat (map (fun b => padStart2 (toString16 (byteValue b))) bytes).

(** [(~parseInt(nibble, 16) & 0xf).toString(16).toUpperCase()] *)
Definition invertNibble (nibble : ascii) : str :=
  toUpperCase (toString16 (Z.land (Z.lnot (toInt32 (parseInt16 [nibble]))) 15)).

Definition getPaddedHex (bigInt : Z) : outcome str :=
  let hex := toString16 bigInt in
  let hex := if negb (Nat.eqb (Nat.modulo (length hex) 2) 0) then "0"%char :: hex else hex in
  let hex := if testLeading89af hex then lit "00" ++ hex else hex in
  if bigInt <? 0 then
    let invertedHex := concat (map invertNibble hex) in
    v <- fromOption SyntaxError (BigInt0x invertedHex) ;;
    let hex := toString16 (v + 1) in
    Return (if startsWith (lit "FF8") (toUpperCase hex) then substring2 hex else hex)
  else Return hex.

Definition concatenateArrays (arrays : list (list byte)) : list byte := concat arrays.

Definition createTimestamp (now : Date) : str :=
  let weekDay :=
    nth (Z.to_nat (getUTCDay now))
      (map lit ["Sun"; "Mon"; "Tue"; "Wed"; "Thu"; "Fri"; "Sat"]%string) (lit "undefined") in
  let month :=
    nth (Z.to_nat (getUTCMonth now))
      (map lit ["Jan"; "Feb"; "Mar"; "Apr"; "May"; "Jun"; "Jul"; "Aug"; "Sep"; "Oct"; "Nov"; "Dec"]%string)
      (lit "undefined") in
  let dec (n : Z) : str := lit (DecimalString.NilZero.string_of_int (Z.to_int n)) in
  let date := dec (getUTCDate now) in
  let hours := padStart2 (dec (getUTCHours now)) in
  let minutes := padStart2 (dec (getUTCMinutes now)) in
  let seconds := padStart2 (dec (getUTCSeconds now)) in
  let year := dec (getUTCFullYear now) in
  weekDay ++ lit " " ++ month ++ lit " " ++ date ++ lit " " ++ hours ++ lit ":" ++
  minutes ++ lit ":" ++ seconds ++ lit " UTC " ++ year.

Section Engine.

Context `{Externals}.

Definition createHash (data : SourceData) (secret : option SourceData) : list byte :=
  sha256 secret data.

(** The initialiser of the field [k]. *)
Definition initK : outcome Z :=
  hexN <- getPaddedHex N ;;
  hexg <- getPaddedHex g ;;
  bytes <- getBytesFromHex (hexN ++ hexg) ;;
  fromOption SyntaxError (BigInt0x (getHexFromBytes (createHash (SDBytes bytes) None))).

Definition construct (userPoolName : str) : outcome engine :=
  k <- initK ;;
  Return {| userPoolName := userPoolName; k := k; a := None; A := None; timestamp := None |}.

(** [buffer] is the content that [crypto.getRandomValues] leaves in the
    16-byte array ([this.crypto] is taken to be set by the constructor).
    The result pairs the outcome with the instance as the call leaves it. *)
Definition calculateSRPAValue (fuel : nat) (buffer : list byte) (this : engine)
  : outcome str * engine :=
  match BigInt0x (getHexFromBytes buffer) with
  | None => (Throw SyntaxError, this)
  | Some a' =>
      let this1 :=
        {| userPoolName := userPoolName this; k := k this; a := Some a'; A := A this;
           timestamp := timestamp this |} in
      match modPow fuel g a' N with
      | Return A' =>
          let this2 :=
            {| userPoolName := userPoolName this; k := k this; a := Some a'; A := Some A';
               timestamp := timestamp this |} in
          (Return (toString16 A'), this2)
      | Throw e => (Throw e, this1)
      | OutOfFuel => (OutOfFuel, this1)
      end
  end.


Definition calculateU (this : engine) (B : Z) : outcome Z :=
  A' <- fromOption TypeError (A this) ;;
  hexA <- getPaddedHex A' ;;
  hexB <- getPaddedHex B ;;
  let hexAB := hexA ++ hexB in
  bytes <- getBytesFromHex hexAB ;;
  let hashHex := getHexFromBytes (createHash (SDBytes bytes) None) in
  U <- fromOption SyntaxError (BigInt0x hashHex) ;;
  if U =? 0 then Throw (JsError (lit "U cannot be zero.")) else Return U.

Definition calculateS (fuel : nat) (this : engine) (x B U : Z) : outcome Z :=
  p <- modPow fuel g x N ;;
  let t0 := p * k this in
  let t1 := B - t0 in
  a' <- fromOption TypeError (a this) ;;
  let t2 := a' + U * x in
  modPow fuel t1 t2 N.

Definition urlB64ToUint8Array (base64String : str) : outcome (list byte) :=
  let padding := repeat "="%char (Nat.modulo (4 - Nat.modulo (length base64String) 4) 4) in
  let base64 :=
    map (fun c => if code c =? 95 then "/"%char else c)
      (map (fun c => if code c =? 45 then "+"%char else c) (base64String ++ padding)) in
  rawData <- fromOption InvalidCharacterError (atob base64) ;;
  Return (map (fun c => toUint8 (Some (code c))) rawData).

Definition calculatePasswordClaimSignature
    (fuel : nat) (now : Date) (password : str) (cp : challengeParameters) (this : engine)
  : outcome str * engine :=
  let this1 :=
    {| userPoolName := userPoolName this; k := k this; a := a this; A := A this;
       timestamp := Some (createTimestamp now) |} in
  let result :=
    serverBValue <- fromOption SyntaxError (BigInt0x (SRP_B cp)) ;;
    if Z.rem serverBValue N =? 0 then Throw (JsError (lit "Invalid server public key"))
    else
      U <- calculateU this1 serverBValue ;;
      serverSalt <- fromOption SyntaxError (BigInt0x (SALT cp)) ;;
      let userPasswordHash :=
        createHash
          (SDString (userPoolName this1 ++ USER_ID_FOR_SRP cp ++ lit ":" ++ password)) None in
      hexSalt <- getPaddedHex serverSalt ;;
      saltedBytes <- getBytesFromHex (hexSalt ++ getHexFromBytes userPasswordHash) ;;
      let saltedUserPassHash := createHash (SDBytes saltedBytes) None in
      x <- fromOption SyntaxError (BigInt0x (getHexFromBytes saltedUserPassHash)) ;;
      S <- calculateS fuel this1 x serverBValue U ;;
      secretBlock <- urlB64ToUint8Array (SECRET_BLOCK cp) ;;
      let concatenatedArray :=
        concatenateArrays
          [encode (userPoolName this1); encode (USER_ID_FOR_SRP cp); secretBlock;
           encode (createTimestamp now)] in
      let context := encode (lit "Caldera Derived Key") in
      let spacer := encode [ascii_of_N 1] in
      let info := concatenateArrays [context; spacer] in
      hexS <- getPaddedHex S ;;
      bytesS <- getBytesFromHex hexS ;;
      hexU <- getPaddedHex U ;;
      bytesU <- getBytesFromHex hexU ;;
      let hmacSecret := createHash (SDBytes bytesS) (Some (SDBytes bytesU)) in
      let awsHashHmac := createHash (SDBytes info) (Some (SDBytes hmacSecret)) in
      let awsHash :=
        createHash (SDBytes concatenatedArray) (Some (SDBytes (firstn 16 awsHashHmac))) in
      Return (btoa (map (fun b => ascii_of_N (Byte.to_N b)) awsHash))
  in (result, this1).

End Engine.

End CognitoSRP.

(** ** src/index.ts, the [BigInteger] variant of [CognitoSRP]

    The module [./BigInteger] is not part of the sources at hand.  Its
    arithmetic is taken to be exact integer arithmetic on [Z]; its
    asynchronous [modPow], which reports through a callback
    [(err, result)], is a parameter. *)

Module Legacy.

(** Modelled from the spec: [BigInteger.prototype.toString(16)] of the
    missing module [./BigInteger], "render as hexadecimal". *)
Definition bigToString16 (n : Z) : str := toString16 n.

(** Modelled from the spec: [new BigInteger(s, 16)] of the missing module
    [./BigInteger], "reinterpret as an integer", on a string of hex digits. *)
Definition bigFromString16 (s : str) : Z := hexValue (digitsOf s).

(** Modelled from the spec: [BigInteger.prototype.mod] of the missing
    module [./BigInteger], reduction into [0, m). *)
Definition bigMod (n m : Z) : Z := n mod m.

Record engine : Type := {
  userPoolName : str;
  k : Z;
  a : Z;
  A : Z
}.

Definition getPaddedHex (bigInt : Z) : str :=
  (* Get a hex string for abs(bigInt) *)
  let hex := bigToString16 (Z.abs bigInt) in
  (* Pad hex to even length if needed *)
  let hex := if negb (Nat.eqb (Nat.modulo (length hex) 2) 0) then "0"%char :: hex else hex in
  (* Prepend "00" if the most significant bit is set *)
  let hex := if testLeading89af hex then lit "00" ++ hex else hex in
  if bigInt <? 0 then
    let invertedHex := concat (map CognitoSRP.invertNibble hex) in
    let hex := bigToString16 (bigFromString16 invertedHex + 1) in
    if startsWith (lit "FF8") (toUpperCase hex) then substring2 hex else hex
  else hex.

Section Engine.

(** [base.modPow(exponent, modulus, callback)]: what the callback receives,
    [inl err] or [inr result]. *)
Variable bigModPow : Z -> Z -> Z -> exn + Z.

Definition calculateSRPAValue (this : engine) : outcome str * engine :=
  match bigModPow CognitoSRP.g (a this) CognitoSRP.N with
  | inl err => (Throw err, this)
  | inr A' =>
      if bigMod A' CognitoSRP.N =? 0
      then (Throw (JsError (lit "Illegal parameter. A mod N cannot be 0.")), this)
      else
        (Return (bigToString16 A'),
         {| userPoolName := userPoolName this; k := k this; a := a this; A := A' |})
  end.

Definition calculateS (this : engine) (x B U : Z) : outcome Z :=
  match bigModPow CognitoSRP.g x CognitoSRP.N with
  | inl outerErr => Throw outerErr
  | inr outerResult =>
      match bigModPow (B - k this * outerResult) (a this + U * x) CognitoSRP.N with
      | inl innerErr => Throw innerErr
      | inr innerResult => Return (bigMod innerResult CognitoSRP.N)
      end
  end.

End Engine.

End Legacy.

(** ** The statements of the specification, in its own words *)

Module Spec.

(** The canonical encoding [pad] of section 4.3, on lists of radix-16
    digits: the digits of the absolute value, one [0] in front when their
    number is odd, two more when the leading digit is 8 or more; for a
    negative integer every digit is complemented, the digits are read as an
    integer, 1 is added, the sum is rendered, and two leading characters
    go when the rendering begins with [ff8]. *)
Definition evenDigits (ds : list Z) : list Z :=
  if Nat.even (length ds) then ds else 0 :: ds.

Definition signDigits (ds : list Z) : list Z :=
  match ds with
  | d :: _ => if 8 <=? d then 0 :: 0 :: ds else ds
  | [] => ds
  end.

Definition stripFF8 (ds : list Z) : list Z :=
  match ds with
  | 15 :: 15 :: 8 :: rest => 8 :: rest
  | _ => ds
  end.

Definition pad (v : Z) : str :=
  let magnitude := signDigits (evenDigits (hexDigits (Z.abs v))) in
  if v <? 0 then
    let complement := map (fun d => 15 - d) magnitude in
    map hexDigit (stripFF8 (hexDigits (hexValue complement + 1)))
  else map hexDigit magnitude.

(** Hex string to bytes, two digits per byte; [None] when the length is
    odd or a character is not a hex digit. *)
Fixpoint hexPairs (s : str) : option (list Z) :=
  match s with
  | [] => Some []
  | c1 :: c2 :: rest =>
      match hexDigitValue c1, hexDigitValue c2, hexPairs rest with
      | Some h, Some l, Some bs => Some (h * 16 + l :: bs)
      | _, _, _ => None
      end
  | [_] => None
  end.

Definition bytesValue (bs : list Z) : Z :=
  fold_left (fun acc b => acc * 256 + b) bs 0.

(** The integer that a non-empty big-endian two's-complement byte string
    denotes: the unsigned value, less [256 ^ length] when the top bit of
    the first byte is set. *)
Definition decodeSigned (s : str) : option Z :=
  match hexPairs s with
  | Some (b :: bs) =>
      let u := bytesValue (b :: bs) in
      Some (if 128 <=? b then u - 256 ^ Z.of_nat (length (b :: bs)) else u)
  | _ => None
  end.

(** Malformed hex: odd length, or a character that is not a hex digit. *)
Definition malformedHex (s : str) : bool :=
  Nat.odd (length s) || negb (forallb isHexDigit s).

End Spec.

(** ** Auxiliary notions of the proofs *)

Definition digitsInRange (ds : list Z) : Prop := Forall (fun d => 0 <= d < 16) ds.

(** The two radix-16 digits of every byte, in order. *)
Definition byteDigits (bytes : list byte) : list Z :=
  flat_map (fun b => [byteValue b / 16; byteValue b mod 16]) bytes.

(** ** Sample collaborators and inputs

    Stand-ins for the hash, the encoder and the Base64 codecs, on which the
    engine can be run. *)

Module Sample.

Definition latin1 (s : str) : list byte := map (fun c => toUint8 (Some (code c))) s.

(** A hash whose digest is 32 zero bytes: the derived [u] is 0. *)
Definition zeroHash : Externals := {|
  sha256 := fun _ _ => repeat x00 32;
  encode := latin1;
  atob := fun s => Some s;
  btoa := fun s => s
|}.

(** A hash whose digest denotes the integer 1. *)
Definition unitHash : Externals := {|
  sha256 := fun _ _ => repeat x00 31 ++ [x01];
  encode := latin1;
  atob := fun s => Some s;
  btoa := fun s => s
|}.

Definition now : Date := {|
  getUTCDay := 2; getUTCMonth := 10; getUTCDate := 3; getUTCHours := 7;
  getUTCMinutes := 2; getUTCSeconds := 59; getUTCFullYear := 2026
|}.

(** The instance that [construct] builds under [unitHash], after
    [calculateSRPAValue] drew [a = 5]: [k = 1] and [A = 2 ^ 5]. *)
Definition challenged : CognitoSRP.engine := {|
  CognitoSRP.userPoolName := lit "pool";
  CognitoSRP.k := 1;
  CognitoSRP.a := Some 5;
  CognitoSRP.A := Some 32;
  CognitoSRP.timestamp := None
|}.

Definition challenge (srp_b salt : string) : CognitoSRP.challengeParameters := {|
  CognitoSRP.USER_ID_FOR_SRP := lit "user";
  CognitoSRP.SALT := lit salt;
  CognitoSRP.SECRET_BLOCK := lit "c2VjcmV0";
  CognitoSRP.SRP_B := lit srp_b
|}.

Definition buffer16 : list byte :=
  [x00; x01; x02; x03; x04; x05; x06; x07; x08; x09; x0a; x0b; x0c; x0d; x0e; xff].

(** The random buffer that denotes [a = 5]. *)
Definition buffer5 : list byte := repeat x00 15 ++ [x05].


End Sample.

(** ** Byte arrays as integers *)

(** The integers that a byte array denotes.  The source has no such
    function: these definitions state what the bytes handed to the hash
    mean. *)

Module Encoding.
(** The unsigned big-endian value of a byte array. *)
Definition unsignedValue (bytes : list byte) : Z :=
  Spec.bytesValue (map byteValue bytes).

(** Its value as a two's-complement integer. *)
Definition signedValue (bytes : list byte) : Z :=
  match bytes with
  | [] => 0
  | b :: _ =>
      if 128 <=? byteValue b
      then unsignedValue bytes - 256 ^ Z.of_nat (length bytes)
      else unsignedValue bytes
  end.
End Encoding.

(** [n.toString()] of an integral [number], as [createTimestamp] uses it. *)
Definition decimal (n : Z) : str :=
  lit (DecimalString.NilZero.string_of_int (Z.to_int n)).

(** ** src/index.ts, the [BigInteger] variant: hashing and the signature *)

Module LegacyEngine.

(** The [options] argument of [createHash]: [from] and [to] say whether
    the field is ["hex"]. *)
Record options : Type := {
  from : bool;
  to : bool;
  secret : option SourceData
}.

(** What [createHash] returns: a [Uint8Array], or a string when
    [options.to] is ["hex"]. *)
Inductive hashed : Type :=
| Bytes (b : list byte)
| Hex (s : str).

(** The overloads of [createHash] fix the form that each call site
    receives. *)
Definition asString (h : hashed) : str :=
  match h with Hex s => s | Bytes _ => [] end.

Definition asBytes (h : hashed) : list byte :=
  match h with Bytes b => b | Hex _ => [] end.

(** The fields of an instance beside those of [Legacy.engine]; the
    constructor sets them. *)
Record instance : Type := {
  core : Legacy.engine;
  info : list byte;
  timestamp : str
}.

Section Engine.

Context `{Externals}.
Variable bigModPow : Z -> Z -> Z -> exn + Z.

Definition createHash (data : SourceData) (opts : option options) : outcome hashed :=
  let key := match opts with Some o => secret o | None => None end in
  input <-
    match opts, data with
    | Some o, SDString s =>
        if from o
        then (bytes <- CognitoSRP.getBytesFromHex s ;; Return (SDBytes bytes))
        else Return data
    | _, _ => Return data
    end ;;
  let hashBytes := sha256 key input in
  Return
    match opts with
    | Some o => if to o then Hex (CognitoSRP.getHexFromBytes hashBytes) else Bytes hashBytes
    | None => Bytes hashBytes
    end.

Definition calculateU (this : instance) (B : Z) : outcome Z :=
  h <- createHash
         (SDString (Legacy.getPaddedHex (Legacy.A (core this)) ++ Legacy.getPaddedHex B))
         (Some {| from := true; to := true; secret := None |}) ;;
  let U := Legacy.bigFromString16 (asString h) in
  if U =? 0 then Throw (JsError (lit "U cannot be zero.")) else Return U.

Definition calculatePasswordClaimSignature
    (password : str) (cp : CognitoSRP.challengeParameters) (this : instance)
  : outcome str :=
  let serverBValue := Legacy.bigFromString16 (CognitoSRP.SRP_B cp) in
  if Legacy.bigMod serverBValue CognitoSRP.N =? 0
  then Throw (JsError (lit "B cannot be zero."))
  else
    U <- calculateU this serverBValue ;;
    let serverSalt := Legacy.bigFromString16 (CognitoSRP.SALT cp) in
    inner <- createHash
               (SDString (Legacy.userPoolName (core this) ++
                          CognitoSRP.USER_ID_FOR_SRP cp ++ lit ":" ++ password))
               (Some {| from := false; to := true; secret := None |}) ;;
    outer <- createHash
               (SDString (Legacy.getPaddedHex serverSalt ++ asString inner))
               (Some {| from := true; to := true; secret := None |}) ;;
    let x := Legacy.bigFromString16 (asString outer) in
    S <- Legacy.calculateS bigModPow (core this) x serverBValue U ;;
    secretBlock <- CognitoSRP.urlB64ToUint8Array (CognitoSRP.SECRET_BLOCK cp) ;;
    let concatenatedArray :=
      CognitoSRP.concatenateArrays
        [encode (Legacy.userPoolName (core this)); encode (CognitoSRP.USER_ID_FOR_SRP cp);
         secretBlock; encode (timestamp this)] in
    bytesS <- CognitoSRP.getBytesFromHex (Legacy.getPaddedHex S) ;;
    bytesU <- CognitoSRP.getBytesFromHex (Legacy.getPaddedHex U) ;;
    hmacSecret <- createHash (SDBytes bytesS)
                    (Some {| from := false; to := false;
                             secret := Some (SDBytes bytesU) |}) ;;
    awsHashHmac <- createHash (SDBytes (info this))
                     (Some {| from := false; to := false;
                              secret := Some (SDBytes (asBytes hmacSecret)) |}) ;;
    awsHash <- createHash (SDBytes concatenatedArray)
                 (Some {| from := false; to := false;
                          secret := Some (SDBytes (firstn 16 (asBytes awsHashHmac))) |}) ;;
    Return (btoa (map (fun b => ascii_of_N (Byte.to_N b)) (asBytes awsHash))).

End Engine.

End LegacyEngine.

(** ** Reading a timestamp

    What the fields of a timestamp denote.  The source only prints
    timestamps: these definitions state what the printed fields mean. *)

Module Timestamp.

Definition digitValue (c : ascii) : option Z :=
  let n := code c in
  if (48 <=? n) && (n <=? 57) then Some (n - 48) else None.

(** The number that a non-empty string of decimal digits denotes. *)
Definition decimalValue (s : str) : option Z :=
  match s with
  | [] => None
  | _ =>
      fold_left
        (fun acc c =>
           match acc, digitValue c with
           | Some n, Some d => Some (10 * n + d)
           | _, _ => None
           end)
        s (Some 0)
  end.

(** The names of the days as [getUTCDay] numbers them, Sunday being 0. *)
Definition dayNames : list (Z * str) :=
  [(0, lit "Sun"); (1, lit "Mon"); (2, lit "Tue"); (3, lit "Wed"); (4, lit "Thu");
   (5, lit "Fri"); (6, lit "Sat")].

(** The names of the months as [getUTCMonth] numbers them, January being 0. *)
Definition monthNames : list (Z * str) :=
  [(0, lit "Jan"); (1, lit "Feb"); (2, lit "Mar"); (3, lit "Apr"); (4, lit "May");
   (5, lit "Jun"); (6, lit "Jul"); (7, lit "Aug"); (8, lit "Sep"); (9, lit "Oct");
   (10, lit "Nov"); (11, lit "Dec")].

End Timestamp.

(** Sample data for the [BigInteger] variant. *)

Module SampleLegacy.

(** A [BigInteger.modPow] that computes the power modulo [modulus]. *)
Definition powMod (base exponent modulus : Z) : exn + Z :=
  inr (base ^ exponent mod modulus).

(** The instance that corresponds to [Sample.challenged], with the
    timestamp and the [info] bytes of a call at [Sample.now]. *)
Definition challenged : LegacyEngine.instance := {|
  LegacyEngine.core :=
    {| Legacy.userPoolName := lit "pool"; Legacy.k := 1; Legacy.a := 5; Legacy.A := 32 |};
  LegacyEngine.info :=
    CognitoSRP.concatenateArrays
      [Sample.latin1 (lit "Caldera Derived Key"); Sample.latin1 [ascii_of_N 1]];
  LegacyEngine.timestamp := CognitoSRP.createTimestamp Sample.now
|}.

End SampleLegacy.

(** * Proofs *)

(** ** Properties of [src/bigIntUtils.ts] *)

Section Arithmetic.

Lemma rem_nonneg_mod (a n : Z) : 0 <= a -> 0 < n -> Z.rem a n = a mod n.
Proof. intros; apply Z.rem_mod_nonneg; lia. Qed.

Lemma quot_nonneg_div (a n : Z) : 0 <= a -> 0 < n -> Z.quot a n = a / n.
Proof. intros; apply Z.quot_div_nonneg; lia. Qed.

Lemma toZn_mod (a n : Z) : 1 <= n -> toZn a n = Return (a mod n).
Proof.
  intros Hn. unfold toZn.
  destruct (Z.ltb_spec n 1) as [?|_]; [lia|].
  f_equal.
  pose proof (Z.quot_rem' a n) as Heq.
  pose proof (Z.rem_bound_abs a n ltac:(lia)) as Hlt.
  destruct (Z.ltb_spec (Z.rem a n) 0).
  - apply Zmod_unique with (q := Z.quot a n - 1); lia.
  - apply Zmod_unique with (q := Z.quot a n); lia.
Qed.

(** One turn of the loop of [eGcd] keeps the two Bezout equations and the
    gcd, and makes the first variable smaller. *)
Lemma eGcdLoop_spec (a0 b0 : Z) :
  forall (fuel : nat) (a b s t u v : Z),
    0 <= a -> 0 <= b -> a <= Z.of_nat fuel ->
    b = a0 * s + b0 * t -> a = a0 * u + b0 * v ->
    Z.gcd a b = Z.gcd a0 b0 ->
    exists r, eGcdLoop fuel a b s t u v = Return r /\
              BigIntUtils.g r = Z.gcd a0 b0 /\
              BigIntUtils.g r = a0 * BigIntUtils.x r + b0 * BigIntUtils.y r.
Proof.
  induction fuel as [|fuel IH]; intros a b s t u v Ha Hb Hfuel Hb' Ha' Hgcd;
    cbn [eGcdLoop]; destruct (Z.eqb_spec a 0) as [Hz|Hne]; cbn [negb]; try lia.
  - eexists; split; [reflexivity|]. cbn.
    rewrite Hz, Z.gcd_0_l, Z.abs_eq in Hgcd by assumption. split; [assumption|lia].
  - eexists; split; [reflexivity|]. cbn.
    rewrite Hz, Z.gcd_0_l, Z.abs_eq in Hgcd by assumption. split; [assumption|lia].
  - rewrite rem_nonneg_mod, quot_nonneg_div by lia.
    pose proof (Z.mod_pos_bound b a ltac:(lia)) as Hr.
    pose proof (Z.div_mod b a ltac:(lia)) as Hdm.
    apply IH; try lia.
    rewrite Z.gcd_mod by lia. assumption.
Qed.

(** The loop of [modPow]: with [0 <= r < m] and [0 <= x], a run that
    ends leaves [r * x ^ y mod m] in the accumulator. *)
Lemma modPowLoop_sound (m : Z) (Hm : 1 < m) :
  forall (fuel : nat) (r y x v : Z),
    0 <= r < m -> 0 <= x -> 0 <= y ->
    modPowLoop fuel r y x m = Return v -> v = (r * x ^ y) mod m.
Proof.
  assert (Hexit : forall r v : Z, 0 <= r < m ->
                    @Return Z r = Return v -> v = (r * 1) mod m)
    by (intros r v Hr [= <-]; rewrite Z.mul_1_r, Z.mod_small; lia).
  induction fuel as [|fuel IH]; intros r y x v Hr Hx Hy; cbn [modPowLoop];
    destruct (Z.gtb_spec y 0) as [Hpos|Hle]; try discriminate.
  - assert (y = 0) by lia. subst y. rewrite Z.pow_0_r. apply Hexit; assumption.
  - rewrite (rem_nonneg_mod y 2), (quot_nonneg_div y 2) by lia.
    rewrite (rem_nonneg_mod (x ^ 2) m) by (try apply Z.pow_nonneg; lia).
    pose proof (Z.div_mod y 2 ltac:(lia)) as Hdm.
    pose proof (Z.mod_pos_bound y 2 ltac:(lia)) as Hbit.
    pose proof (Z.mod_pos_bound (x ^ 2) m ltac:(lia)) as Hsq.
    assert (Hhalf : 0 <= y / 2) by (apply Z.div_pos; lia).
    assert (Hsplit : x ^ y = (x ^ 2) ^ (y / 2) * x ^ (y mod 2)).
    { rewrite <- Z.pow_mul_r, <- Z.pow_add_r by lia. f_equal. lia. }
    destruct (Z.eqb_spec (y mod 2) 1) as [Hodd|Heven]; intros Hrun.
    + rewrite (rem_nonneg_mod (r * x) m) in Hrun by nia.
      apply IH in Hrun; try lia; [|apply Z.mod_pos_bound; lia].
      rewrite Hrun, Hsplit, Hodd, Z.pow_1_r.
      rewrite Zmult_mod_idemp_l.
      rewrite <- Zmult_mod_idemp_r, Z.mod_pow_l, Zmult_mod_idemp_r.
      f_equal. ring.
    + assert (Hz : y mod 2 = 0) by lia.
      apply IH in Hrun; try lia.
      rewrite Hrun, Hsplit, Hz, Z.pow_0_r, Z.mul_1_r.
      rewrite <- Zmult_mod_idemp_r, Z.mod_pow_l, Zmult_mod_idemp_r.
      reflexivity.
  - assert (y = 0) by lia. subst y. rewrite Z.pow_0_r. apply Hexit; assumption.
Qed.

Lemma modPowLoop_terminates (m : Z) :
  forall (fuel : nat) (r y x : Z),
    y < 2 ^ Z.of_nat fuel -> exists v, modPowLoop fuel r y x m = Return v.
Proof.
  induction fuel as [|fuel IH]; intros r y x Hfuel; cbn [modPowLoop];
    destruct (Z.gtb_spec y 0) as [Hpos|Hle]; try (eexists; reflexivity).
  - cbn in Hfuel. lia.
  - apply IH. rewrite quot_nonneg_div by lia.
    rewrite Nat2Z.inj_succ, Z.pow_succ_r in Hfuel by lia.
    apply Z.div_lt_upper_bound; lia.
Qed.

Lemma modPowLoop_spec (m : Z) (Hm : 1 < m) (fuel : nat) (r y x : Z) :
  0 <= r < m -> 0 <= x -> 0 <= y -> y < 2 ^ Z.of_nat fuel ->
  modPowLoop fuel r y x m = Return ((r * x ^ y) mod m).
Proof.
  intros Hr Hx Hy Hfuel.
  destruct (modPowLoop_terminates m fuel r y x Hfuel) as [v Hv].
  rewrite Hv. f_equal. eapply modPowLoop_sound; eassumption.
Qed.


Lemma modPow_nonneg (fuel : nat) (b e m : Z) :
  0 <= e -> 1 < m -> e < 2 ^ Z.of_nat fuel ->
  modPow fuel b e m = Return (b ^ e mod m).
Proof.
  intros He Hm Hfuel.
  destruct fuel; cbn [modPow];
    (destruct (Z.ltb_spec m 1); [lia|]);
    (destruct (Z.eqb_spec m 1); [lia|]);
    rewrite toZn_mod by lia; cbn [bind];
    (destruct (Z.ltb_spec e 0); [lia|]);
    (rewrite modPowLoop_spec; try lia;
      [ rewrite Z.mul_1_l, Z.mod_pow_l; reflexivity
      | apply Z.mod_pos_bound; lia ]).
Qed.

Lemma modPow_modulus_one (fuel : nat) (b e : Z) : modPow fuel b e 1 = Return 0.
Proof. destruct fuel; reflexivity. Qed.

Lemma modPow_returns (fuel : nat) (b e m : Z) :
  0 <= e -> 1 <= m -> e < 2 ^ Z.of_nat fuel ->
  modPow fuel b e m = Return (b ^ e mod m).
Proof.
  intros He Hm Hfuel. destruct (Z.eq_dec m 1) as [->|Hne].
  - rewrite modPow_modulus_one, Z.mod_1_r. reflexivity.
  - apply modPow_nonneg; lia.
Qed.

Lemma modPow_modulus_low (fuel : nat) (b e m : Z) :
  m < 1 -> modPow fuel b e m = Throw (RangeError (lit "n must be > 0")).
Proof.
  intros Hm. destruct fuel; cbn [modPow]; destruct (Z.ltb_spec m 1); (reflexivity || lia).
Qed.

Lemma eGcdLoop_terminates :
  forall (fuel : nat) (a b s t u v : Z),
    0 <= a -> 0 <= b -> a <= Z.of_nat fuel ->
    exists r, eGcdLoop fuel a b s t u v = Return r.
Proof.
  induction fuel as [|fuel IH]; intros a b s t u v Ha Hb Hfuel;
    cbn [eGcdLoop]; destruct (Z.eqb_spec a 0) as [Hz|Hne]; cbn [negb];
    try (eexists; reflexivity); try lia.
  rewrite rem_nonneg_mod by lia.
  pose proof (Z.mod_pos_bound b a ltac:(lia)).
  apply IH; lia.
Qed.

Lemma eGcd_spec (fuel : nat) (a b : Z) :
  1 <= a -> 1 <= b -> a <= Z.of_nat fuel ->
  exists r, eGcd fuel a b = Return r /\
            BigIntUtils.g r = Z.gcd a b /\
            BigIntUtils.g r = a * BigIntUtils.x r + b * BigIntUtils.y r.
Proof.
  intros Ha Hb Hfuel. unfold eGcd.
  destruct (Z.ltb_spec a 1); [lia|]. destruct (Z.ltb_spec b 1); [lia|]. cbn [orb].
  apply eGcdLoop_spec; lia.
Qed.

Lemma eGcd_domain (fuel : nat) (a b : Z) :
  a < 1 \/ b < 1 -> eGcd fuel a b = Throw (RangeError (lit "a and b must be > 0")).
Proof.
  intros Hab. unfold eGcd.
  destruct (Z.ltb_spec a 1); [reflexivity|].
  destruct (Z.ltb_spec b 1); [reflexivity|lia].
Qed.

(** [modInv] on a residue [0 <= p < m]. *)
Lemma modInv_coprime (fuel : nat) (p m : Z) :
  1 < m -> 0 <= p < m -> p <= Z.of_nat fuel -> Z.gcd p m = 1 ->
  exists r, modInv fuel p m = Return r /\ 0 <= r < m /\ (r * p) mod m = 1.
Proof.
  intros Hm Hp Hfuel Hgcd. unfold modInv.
  rewrite toZn_mod, Z.mod_small by lia. cbn [bind].
  assert (Hp1 : 1 <= p).
  { destruct (Z.eq_dec p 0) as [->|]; [|lia].
    rewrite Z.gcd_0_l, Z.abs_eq in Hgcd; lia. }
  destruct (eGcd_spec fuel p m) as (r & -> & Hg & Hbez); try lia.
  cbn [bind]. rewrite Hg, Hgcd. cbn [Z.eqb Pos.eqb negb].
  rewrite toZn_mod by lia.
  eexists; split; [reflexivity|]. split; [apply Z.mod_pos_bound; lia|].
  rewrite Zmult_mod_idemp_l.
  replace (BigIntUtils.x r * p) with (1 + (- BigIntUtils.y r) * m) by lia.
  rewrite Z.mod_add, Z.mod_small; lia.
Qed.

Lemma modInv_no_inverse (fuel : nat) (p m : Z) :
  1 < m -> 0 <= p < m -> p <= Z.of_nat fuel -> Z.gcd p m <> 1 ->
  exists msg, modInv fuel p m = Throw (RangeError msg).
Proof.
  intros Hm Hp Hfuel Hgcd. unfold modInv.
  rewrite toZn_mod, Z.mod_small by lia. cbn [bind].
  destruct (Z.eq_dec p 0) as [->|Hne].
  - rewrite eGcd_domain by lia. cbn [bind]. eexists; reflexivity.
  - destruct (eGcd_spec fuel p m) as (r & -> & Hg & _); try lia.
    cbn [bind]. rewrite Hg.
    destruct (Z.eqb_spec (Z.gcd p m) 1); [contradiction|]. cbn [negb].
    eexists; reflexivity.
Qed.

Lemma gcd_pow_mod_coprime (b n m : Z) :
  0 <= n -> 1 < m -> Z.gcd b m = 1 -> Z.gcd (b ^ n mod m) m = 1.
Proof.
  intros Hn Hm Hgcd. rewrite Z.gcd_mod_l.
  apply (Z.coprime_pow_l b m n Hn Hgcd).
Qed.

Lemma gcd_pow_mod_common (b n m : Z) :
  1 <= n -> 1 < m -> Z.gcd b m <> 1 -> Z.gcd (b ^ n mod m) m <> 1.
Proof.
  intros Hn Hm Hgcd Hone. rewrite Z.gcd_mod_l in Hone.
  assert (Hdiv : (Z.gcd b m | Z.gcd (b ^ n) m)).
  { apply Z.gcd_greatest; [|apply Z.gcd_divide_r].
    replace n with (Z.succ (n - 1)) by lia. rewrite Z.pow_succ_r by lia.
    apply Z.divide_mul_l, Z.gcd_divide_l. }
  rewrite Hone in Hdiv. apply Z.divide_1_r_nonneg in Hdiv; [contradiction|].
  apply Z.gcd_nonneg.
Qed.

End Arithmetic.

(** ** Properties of the radix-16 renderings and of [getPaddedHex] *)

Section HexDigits.

Lemma hexValue_fold (ds : list Z) :
  forall acc, fold_left (fun acc d => acc * 16 + d) ds acc
              = acc * 16 ^ Z.of_nat (length ds) + hexValue ds.
Proof.
  unfold hexValue. induction ds as [|d ds IH]; intros acc.
  - cbn. lia.
  - cbn [fold_left length]. rewrite IH, (IH (0 * 16 + d)).
    rewrite Nat2Z.inj_succ, Z.pow_succ_r by lia. ring.
Qed.

Lemma hexValue_cons (d : Z) (ds : list Z) :
  hexValue (d :: ds) = d * 16 ^ Z.of_nat (length ds) + hexValue ds.
Proof.
  unfold hexValue at 1. cbn [fold_left]. rewrite hexValue_fold. ring.
Qed.

Lemma hexValue_app (ds es : list Z) :
  hexValue (ds ++ es) = hexValue ds * 16 ^ Z.of_nat (length es) + hexValue es.
Proof.
  unfold hexValue at 1. rewrite fold_left_app.
  fold (hexValue ds). apply hexValue_fold.
Qed.

Lemma hexValue_bound (ds : list Z) :
  digitsInRange ds -> 0 <= hexValue ds < 16 ^ Z.of_nat (length ds).
Proof.
  induction 1 as [|d ds Hd _ IH].
  - cbn. lia.
  - rewrite hexValue_cons. cbn [length].
    rewrite Nat2Z.inj_succ, Z.pow_succ_r by lia. nia.
Qed.

Lemma hexValue_leading (d : Z) (ds : list Z) :
  digitsInRange (d :: ds) ->
  d * 16 ^ Z.of_nat (length ds) <= hexValue (d :: ds)
  < (d + 1) * 16 ^ Z.of_nat (length ds).
Proof.
  intros Hr. inversion Hr as [|? ? Hd Hds]; subst.
  rewrite hexValue_cons. pose proof (hexValue_bound ds Hds). lia.
Qed.

Lemma toDigits_S (f : nat) (n : Z) (acc : list Z) :
  toDigits (S f) n acc
  = if n <? 16 then n :: acc else toDigits f (n / 16) (n mod 16 :: acc).
Proof. reflexivity. Qed.

Lemma toDigits_spec :
  forall (f : nat) (n : Z) (acc : list Z),
    0 <= n < 16 ^ Z.of_nat (S f) ->
    exists ds, toDigits (S f) n acc = ds ++ acc /\ digitsInRange ds /\
               hexValue ds = n /\ ds <> [] /\ (0 < n -> 1 <= hd 0 ds).
Proof.
  induction f as [|f IH]; intros n acc Hn; rewrite toDigits_S;
    destruct (Z.ltb_spec n 16) as [Hlt|Hge].
  - exists [n]. repeat split; try (cbn; lia); try discriminate.
    constructor; [lia|constructor].
  - cbn in Hn. lia.
  - exists [n]. repeat split; try (cbn; lia); try discriminate.
    constructor; [lia|constructor].
  - assert (Hq : 0 <= n / 16 < 16 ^ Z.of_nat (S f)).
    { rewrite (Nat2Z.inj_succ (S f)), Z.pow_succ_r in Hn by lia.
      split; [apply Z.div_pos; lia|apply Z.div_lt_upper_bound; lia]. }
    destruct (IH (n / 16) (n mod 16 :: acc) Hq) as (ds & Heq & Hr & Hv & Hne & Hhd).
    pose proof (Z.mod_pos_bound n 16 ltac:(lia)) as Hm.
    exists (ds ++ [n mod 16]). repeat split.
    + rewrite Heq, <- app_assoc. reflexivity.
    + apply Forall_app; split; [assumption|]. constructor; [lia|constructor].
    + rewrite hexValue_app, Hv. cbn.
      pose proof (Z.div_mod n 16 ltac:(lia)). lia.
    + destruct ds; discriminate.
    + intros _. destruct ds as [|d ds]; [contradiction|]. cbn.
      apply Hhd. apply Z.div_str_pos; lia.
Qed.

Lemma hexDigits_spec (n : Z) :
  0 <= n ->
  digitsInRange (hexDigits n) /\ hexValue (hexDigits n) = n /\
  hexDigits n <> [] /\ (0 < n -> 1 <= hd 0 (hexDigits n)).
Proof.
  intros Hn. unfold hexDigits.
  destruct (toDigits_spec (Z.to_nat (Z.log2 n)) n []) as (ds & Heq & H1 & H2 & H3 & H4).
  - split; [assumption|].
    rewrite Nat2Z.inj_succ, Z2Nat.id by apply Z.log2_nonneg.
    destruct (Z.eq_dec n 0) as [->|Hne]; [cbn; lia|].
    pose proof (Z.log2_spec n ltac:(lia)) as [_ Hup].
    eapply Z.lt_le_trans; [exact Hup|].
    apply Z.pow_le_mono_l. pose proof (Z.log2_nonneg n). lia.
  - rewrite Heq, app_nil_r. auto.
Qed.

(** A list of digits with a non-zero head has exactly as many digits as
    its value has. *)
Lemma digits_length_unique (ds : list Z) (k : nat) :
  digitsInRange ds -> 1 <= hd 0 ds ->
  16 ^ (Z.of_nat k - 1) <= hexValue ds < 16 ^ Z.of_nat k ->
  length ds = k.
Proof.
  intros Hr Hhd Hv.
  destruct ds as [|d ds]; [cbn in Hhd; lia|]. cbn in Hhd.
  pose proof (hexValue_leading d ds Hr) as Hl.
  pose proof (hexValue_bound (d :: ds) Hr) as Hb. cbn [length] in *.
  assert (H1 : 16 ^ Z.of_nat (length ds) < 16 ^ Z.of_nat k) by nia.
  apply Z.pow_lt_mono_r_iff in H1; try lia.
  destruct k as [|k].
  - cbn in Hv. lia.
  - assert (H2 : 16 ^ (Z.of_nat (S k) - 1) < 16 ^ Z.of_nat (S (length ds))) by lia.
    apply Z.pow_lt_mono_r_iff in H2; lia.
Qed.

Lemma hexDigits_length (n : Z) (k : nat) :
  16 ^ (Z.of_nat k - 1) <= n < 16 ^ Z.of_nat k -> 0 < n ->
  length (hexDigits n) = k.
Proof.
  intros Hn Hpos.
  destruct (hexDigits_spec n ltac:(lia)) as (Hr & Hv & _ & Hhd).
  apply digits_length_unique; auto. rewrite Hv. assumption.
Qed.

Lemma hexValue_complement (ds : list Z) :
  hexValue (map (fun d => 15 - d) ds) = 16 ^ Z.of_nat (length ds) - 1 - hexValue ds.
Proof.
  induction ds as [|d ds IH].
  - reflexivity.
  - cbn [map]. rewrite !hexValue_cons, IH, length_map. cbn [length].
    rewrite Nat2Z.inj_succ, Z.pow_succ_r by lia. ring.
Qed.

Lemma complement_inRange (ds : list Z) :
  digitsInRange ds -> digitsInRange (map (fun d => 15 - d) ds).
Proof.
  induction 1 as [|d ds Hd _ IH]; cbn [map].
  - constructor.
  - constructor; [lia|exact IH].
Qed.

(** *** Characters and digits *)

Ltac each_digit d :=
  let H := fresh "Hcase" in
  assert (H : d = 0 \/ d = 1 \/ d = 2 \/ d = 3 \/ d = 4 \/ d = 5 \/ d = 6 \/ d = 7 \/
              d = 8 \/ d = 9 \/ d = 10 \/ d = 11 \/ d = 12 \/ d = 13 \/ d = 14 \/ d = 15)
    by lia;
  repeat (destruct H as [H|H]); subst d.

Lemma hexDigitValue_hexDigit (d : Z) :
  0 <= d < 16 -> hexDigitValue (hexDigit d) = Some d.
Proof. intros Hd. each_digit d; reflexivity. Qed.

Lemma isHexDigit_hexDigit (d : Z) : 0 <= d < 16 -> isHexDigit (hexDigit d) = true.
Proof. intros Hd. unfold isHexDigit. rewrite hexDigitValue_hexDigit; trivial. Qed.

Lemma hexDigitValue_upper (d : Z) :
  0 <= d < 16 -> hexDigitValue (toUpperChar (hexDigit d)) = Some d.
Proof. intros Hd. each_digit d; reflexivity. Qed.

Lemma invertNibble_hexDigit (d : Z) :
  0 <= d < 16 ->
  CognitoSRP.invertNibble (hexDigit d) = [toUpperChar (hexDigit (15 - d))].
Proof. intros Hd. each_digit d; reflexivity. Qed.

Lemma invertNibble_minus :
  CognitoSRP.invertNibble "-"%char = [toUpperChar (hexDigit (15 - 0))].
Proof. reflexivity. Qed.

Lemma upper_is_F (d : Z) :
  0 <= d < 16 -> Ascii.eqb "F"%char (toUpperChar (hexDigit d)) = (d =? 15).
Proof. intros Hd. each_digit d; reflexivity. Qed.

Lemma upper_is_8 (d : Z) :
  0 <= d < 16 -> Ascii.eqb "8"%char (toUpperChar (hexDigit d)) = (d =? 8).
Proof. intros Hd. each_digit d; reflexivity. Qed.

Lemma digitsOf_hexDigit (ds : list Z) :
  digitsInRange ds -> digitsOf (map hexDigit ds) = ds.
Proof.
  induction 1 as [|d ds Hd _ IH]; [reflexivity|].
  cbn [map digitsOf] in *. unfold digitsOf in IH.
  rewrite hexDigitValue_hexDigit, IH by assumption. reflexivity.
Qed.

Lemma digitsOf_upper (ds : list Z) :
  digitsInRange ds -> digitsOf (map (fun d => toUpperChar (hexDigit d)) ds) = ds.
Proof.
  induction 1 as [|d ds Hd _ IH]; [reflexivity|].
  cbn [map digitsOf] in *. unfold digitsOf in IH.
  rewrite hexDigitValue_upper, IH by assumption. reflexivity.
Qed.

Lemma allHex_hexDigit (ds : list Z) :
  digitsInRange ds -> forallb isHexDigit (map hexDigit ds) = true.
Proof.
  induction 1 as [|d ds Hd _ IH]; [reflexivity|].
  cbn [map forallb]. rewrite isHexDigit_hexDigit, IH by assumption. reflexivity.
Qed.

Lemma allHex_upper (ds : list Z) :
  digitsInRange ds ->
  forallb isHexDigit (map (fun d => toUpperChar (hexDigit d)) ds) = true.
Proof.
  induction 1 as [|d ds Hd _ IH]; [reflexivity|].
  cbn [map forallb]. unfold isHexDigit at 1.
  rewrite hexDigitValue_upper, IH by assumption. reflexivity.
Qed.

Lemma span_allHex (s : str) :
  forallb isHexDigit s = true -> span isHexDigit s = (s, []).
Proof.
  induction s as [|c s IH]; [reflexivity|].
  cbn [forallb span]. intros [Hc Hs]%andb_prop.
  rewrite Hc, IH by assumption. reflexivity.
Qed.

(** [BigInt] accepts every non-empty string of hex digits, whatever the
    parity of its length. *)
Lemma BigInt0x_allHex (s : str) :
  s <> [] -> forallb isHexDigit s = true ->
  BigInt0x s = Some (hexValue (digitsOf s)).
Proof.
  intros Hne Hs. unfold BigInt0x. rewrite span_allHex by assumption.
  destruct s; [contradiction|reflexivity].
Qed.

Lemma toString16_nonneg (n : Z) :
  0 <= n -> toString16 n = map hexDigit (hexDigits n).
Proof.
  intros Hn. unfold toString16. destruct (Z.ltb_spec n 0); [lia|reflexivity].
Qed.

Lemma toString16_neg (n : Z) :
  n < 0 -> toString16 n = "-"%char :: map hexDigit (hexDigits (- n)).
Proof.
  intros Hn. unfold toString16. destruct (Z.ltb_spec n 0); [reflexivity|lia].
Qed.

Lemma odd_length_test (n : nat) :
  negb (Nat.eqb (Nat.modulo n 2) 0) = negb (Nat.even n).
Proof.
  f_equal. rewrite <- Nat.bit0_mod, Nat.bit0_odd, <- Nat.negb_even.
  destruct (Nat.even n); reflexivity.
Qed.

Lemma testLeading_hexDigit (ds : list Z) :
  digitsInRange ds ->
  testLeading89af (map hexDigit ds) = match ds with d :: _ => 8 <=? d | [] => false end.
Proof.
  intros Hr. destruct ds as [|d ds]; [reflexivity|].
  inversion Hr; subst. cbn [map testLeading89af].
  rewrite hexDigitValue_hexDigit by assumption. reflexivity.
Qed.

Lemma startsWith_FF8 (ds : list Z) :
  digitsInRange ds ->
  startsWith (lit "FF8") (toUpperCase (map hexDigit ds))
  = match ds with
    | d1 :: d2 :: d3 :: _ => (d1 =? 15) && ((d2 =? 15) && (d3 =? 8))
    | _ => false
    end.
Proof.
  intros Hr.
  destruct ds as [|d1 [|d2 [|d3 ds]]]; cbn [map toUpperCase lit list_ascii_of_string startsWith].
  - reflexivity.
  - inversion Hr; subst. rewrite upper_is_F by assumption. apply andb_false_r.
  - inversion Hr as [|? ? H1 Hr1]; subst. inversion Hr1; subst.
    rewrite !upper_is_F by assumption. rewrite andb_false_r. apply andb_false_r.
  - inversion Hr as [|? ? H1 Hr1]; subst. inversion Hr1 as [|? ? H2 Hr2]; subst.
    inversion Hr2; subst.
    rewrite !upper_is_F, upper_is_8 by assumption. rewrite andb_true_r. reflexivity.
Qed.

(** *** Decoding a string of digits as a signed byte string *)

Lemma bytesValue_fold (bs : list Z) :
  forall acc, fold_left (fun acc b => acc * 256 + b) bs acc
              = acc * 256 ^ Z.of_nat (length bs) + Spec.bytesValue bs.
Proof.
  unfold Spec.bytesValue. induction bs as [|c bs IH]; intros acc.
  - cbn. lia.
  - cbn [fold_left length]. rewrite IH, (IH (0 * 256 + c)).
    rewrite Nat2Z.inj_succ, Z.pow_succ_r by lia. ring.
Qed.

Lemma bytesValue_cons (b : Z) (bs : list Z) :
  Spec.bytesValue (b :: bs) = b * 256 ^ Z.of_nat (length bs) + Spec.bytesValue bs.
Proof.
  unfold Spec.bytesValue at 1. cbn [fold_left]. rewrite bytesValue_fold. ring.
Qed.

Lemma hexPairs_digits :
  forall (n : nat) (ds : list Z),
    length ds = (2 * n)%nat -> digitsInRange ds ->
    exists bs, Spec.hexPairs (map hexDigit ds) = Some bs /\ length bs = n /\
               Spec.bytesValue bs = hexValue ds /\
               (128 <=? hd 0 bs) = (8 <=? hd 0 ds).
Proof.
  induction n as [|n IH]; intros ds Hlen Hr.
  - destruct ds; [|discriminate]. exists []. repeat split.
  - destruct ds as [|d1 [|d2 ds]]; cbn [length] in Hlen; try lia.
    inversion Hr as [|? ? H1 Hr1]; subst. inversion Hr1 as [|? ? H2 Hr2]; subst.
    destruct (IH ds ltac:(lia) Hr2) as (bs & Hbs & Hl & Hv & _).
    exists (d1 * 16 + d2 :: bs). cbn [map Spec.hexPairs].
    rewrite !hexDigitValue_hexDigit, Hbs by assumption.
    repeat split.
    + cbn [length]. lia.
    + rewrite bytesValue_cons, Hv, !hexValue_cons, Hl. cbn [length].
      replace (Z.of_nat (S (length ds))) with (Z.succ (Z.of_nat (length ds))) by lia.
      rewrite Z.pow_succ_r by lia.
      replace (length ds) with (2 * n)%nat by lia.
      replace (Z.of_nat (2 * n)) with (2 * Z.of_nat n) by lia.
      rewrite Z.pow_mul_r by lia. change (16 ^ 2) with 256. ring.
    + cbn [hd]. destruct (Z.leb_spec 128 (d1 * 16 + d2)), (Z.leb_spec 8 d1); lia.
Qed.

Lemma decodeSigned_digits (ds : list Z) :
  digitsInRange ds -> ds <> [] -> Nat.even (length ds) = true ->
  Spec.decodeSigned (map hexDigit ds)
  = Some (if 8 <=? hd 0 ds then hexValue ds - 16 ^ Z.of_nat (length ds) else hexValue ds).
Proof.
  intros Hr Hne Hev. apply Nat.even_spec in Hev. destruct Hev as [n Hn].
  destruct (hexPairs_digits n ds Hn Hr) as (bs & Hbs & Hl & Hv & Hhd).
  unfold Spec.decodeSigned. rewrite Hbs.
  destruct bs as [|b bs].
  - destruct ds; [contradiction|]. cbn in Hl, Hn. lia.
  - cbn [hd] in Hhd. rewrite Hhd, Hv, Hl, Hn.
    replace (Z.of_nat (2 * n)) with (2 * Z.of_nat n) by lia.
    rewrite Z.pow_mul_r by lia. reflexivity.
Qed.

(** *** The two branches of [getPaddedHex] on digit lists *)

Lemma evenDigits_spec (ds : list Z) :
  digitsInRange ds ->
  digitsInRange (Spec.evenDigits ds) /\ hexValue (Spec.evenDigits ds) = hexValue ds /\
  Nat.even (length (Spec.evenDigits ds)) = true.
Proof.
  intros Hr. unfold Spec.evenDigits.
  destruct (Nat.even (length ds)) eqn:Hev; [repeat split; assumption|].
  split; [|split].
  - constructor; [lia|assumption].
  - rewrite hexValue_cons. lia.
  - cbn [length]. rewrite Nat.even_succ, <- Nat.negb_even, Hev. reflexivity.
Qed.

Lemma signDigits_spec (ds : list Z) :
  digitsInRange ds -> Nat.even (length ds) = true ->
  digitsInRange (Spec.signDigits ds) /\ hexValue (Spec.signDigits ds) = hexValue ds /\
  Nat.even (length (Spec.signDigits ds)) = true /\
  (8 <=? hd 0 (Spec.signDigits ds)) = false.
Proof.
  intros Hr Hev. unfold Spec.signDigits.
  destruct ds as [|d ds]; [repeat split; auto|].
  destruct (Z.leb_spec 8 d) as [Hge|Hlt].
  - split; [|split; [|split]].
    + repeat (constructor; [lia|]). assumption.
    + rewrite (hexValue_cons 0), (hexValue_cons 0). lia.
    + assumption.
    + reflexivity.
  - split; [|split; [|split]]; auto. cbn [hd]. apply Z.leb_gt. assumption.
Qed.

(** The first three steps of [getPaddedHex] on a non-negative integer. *)
Lemma magnitude_string (n : Z) :
  0 <= n ->
  (let hex := toString16 n in
   let hex := if negb (Nat.eqb (Nat.modulo (length hex) 2) 0)
              then "0"%char :: hex else hex in
   if testLeading89af hex then lit "00" ++ hex else hex)
  = map hexDigit (Spec.signDigits (Spec.evenDigits (hexDigits n))).
Proof.
  intros Hn. cbv zeta.
  destruct (hexDigits_spec n Hn) as (Hr & _ & Hne & _).
  rewrite toString16_nonneg, length_map, odd_length_test by assumption.
  assert (Hpad : (if negb (Nat.even (length (hexDigits n)))
                  then "0"%char :: map hexDigit (hexDigits n)
                  else map hexDigit (hexDigits n))
                 = map hexDigit (Spec.evenDigits (hexDigits n))).
  { unfold Spec.evenDigits. destruct (Nat.even (length (hexDigits n))); reflexivity. }
  rewrite Hpad.
  destruct (evenDigits_spec _ Hr) as (Hr' & _ & _).
  rewrite testLeading_hexDigit by assumption.
  unfold Spec.signDigits. destruct (Spec.evenDigits (hexDigits n)) as [|d ds]; [reflexivity|].
  destruct (8 <=? d); reflexivity.
Qed.

Lemma getPaddedHex_nonneg (v : Z) :
  0 <= v ->
  CognitoSRP.getPaddedHex v
  = Return (map hexDigit (Spec.signDigits (Spec.evenDigits (hexDigits v)))).
Proof.
  intros Hv. unfold CognitoSRP.getPaddedHex.
  pose proof (magnitude_string v Hv) as Hm. cbv zeta in Hm |- *. rewrite Hm.
  destruct (Z.ltb_spec v 0); [lia|reflexivity].
Qed.

(** The negative branch: the complement of an even number of digits, plus
    one, printed and stripped, decodes to the opposite of their value. *)
Lemma twos_complement_decode (X : list Z) :
  digitsInRange X -> Nat.even (length X) = true ->
  0 < hexValue X <= 8 * 16 ^ (Z.of_nat (length X) - 1) ->
  let out := toString16 (hexValue (map (fun d => 15 - d) X) + 1) in
  Spec.decodeSigned
    (if startsWith (lit "FF8") (toUpperCase out) then substring2 out else out)
  = Some (- hexValue X).
Proof.
  intros Hr Hev Hv out. subst out.
  rewrite hexValue_complement.
  set (L := length X) in *.
  assert (HL : (1 <= L)%nat).
  { destruct X; [cbn in Hv; lia|cbn; lia]. }
  assert (Hpow : 16 ^ Z.of_nat L = 16 * 16 ^ (Z.of_nat L - 1)).
  { rewrite <- Z.pow_succ_r by lia. f_equal. lia. }
  assert (Hpos : 0 < 16 ^ (Z.of_nat L - 1)) by (apply Z.pow_pos_nonneg; lia).
  set (R := 16 ^ Z.of_nat L - 1 - hexValue X + 1).
  assert (HR : 8 * 16 ^ (Z.of_nat L - 1) <= R < 16 ^ Z.of_nat L) by (unfold R; lia).
  rewrite toString16_nonneg by lia.
  destruct (hexDigits_spec R ltac:(lia)) as (HrD & HvD & HneD & _).
  assert (HlenD : length (hexDigits R) = L) by (apply hexDigits_length; lia).
  rewrite startsWith_FF8 by assumption.
  destruct (hexDigits R) as [|d1 D1] eqn:HD; [contradiction|].
  pose proof (hexValue_leading d1 D1 HrD) as Hlead.
  assert (HlenD1 : Z.of_nat (length D1) = Z.of_nat L - 1) by (cbn [length] in HlenD; lia).
  rewrite HlenD1, HvD in Hlead.
  assert (Hd1 : 8 <= d1) by nia.
  assert (Hplain :
    Spec.decodeSigned (map hexDigit (d1 :: D1)) = Some (- hexValue X)).
  { rewrite decodeSigned_digits; [|assumption|discriminate|rewrite HlenD; assumption].
    cbn [hd]. destruct (Z.leb_spec 8 d1); [|lia].
    rewrite HvD, HlenD. f_equal. unfold R. lia. }
  destruct D1 as [|d2 [|d3 D3]]; try exact Hplain.
  destruct ((d1 =? 15) && ((d2 =? 15) && (d3 =? 8))) eqn:Hff8; [|exact Hplain].
  apply andb_prop in Hff8 as [H1 H23]. apply andb_prop in H23 as [H2 H3].
  apply Z.eqb_eq in H1, H2, H3. subst d1 d2 d3.
  cbn [map substring2 skipn].
  change (hexDigit 8 :: map hexDigit D3) with (map hexDigit (8 :: D3)).
  inversion HrD as [|? ? _ HrD2]; subst. inversion HrD2 as [|? ? _ HrD3]; subst.
  assert (HL3 : L = S (S (length (8 :: D3)))) by (cbn [length] in *; lia).
  rewrite decodeSigned_digits; [|assumption|discriminate|].
  2:{ rewrite HL3 in Hev. exact Hev. }
  cbn [hd]. change (8 <=? 8) with true. cbv iota. f_equal.
  rewrite (hexValue_cons 15), (hexValue_cons 15) in HvD.
  unfold R in HvD. clear - HvD HL3. clearbody L. subst L.
  cbn [length] in *. rewrite !Nat2Z.inj_succ in *.
  rewrite !Z.pow_succ_r in * by lia. lia.
Qed.

Lemma invert_digits (ds : list Z) :
  digitsInRange ds ->
  concat (map CognitoSRP.invertNibble (map hexDigit ds))
  = map (fun d => toUpperChar (hexDigit d)) (map (fun d => 15 - d) ds).
Proof.
  induction 1 as [|d ds Hd _ IH]; [reflexivity|].
  cbn [map concat]. rewrite invertNibble_hexDigit, IH by assumption. reflexivity.
Qed.

Lemma BigInt0x_upper (ds : list Z) :
  digitsInRange ds -> ds <> [] ->
  BigInt0x (map (fun d => toUpperChar (hexDigit d)) ds) = Some (hexValue ds).
Proof.
  intros Hr Hne. rewrite BigInt0x_allHex.
  - rewrite digitsOf_upper by assumption. reflexivity.
  - destruct ds; [contradiction|discriminate].
  - apply allHex_upper. assumption.
Qed.

(** The digits that the negative branch of the [bigint] variant
    complements: the minus sign, and the [0] put in front of it, count as
    digits [0]. *)
Lemma getPaddedHex_neg (v : Z) :
  v < 0 ->
  let ds := hexDigits (- v) in
  let X := (if Nat.even (length ds) then [0; 0] else [0]) ++ ds in
  CognitoSRP.getPaddedHex v
  = Return (let out := toString16 (hexValue (map (fun d => 15 - d) X) + 1) in
            if startsWith (lit "FF8") (toUpperCase out) then substring2 out else out).
Proof.
  intros Hv ds X. unfold CognitoSRP.getPaddedHex. cbv zeta.
  destruct (hexDigits_spec (- v) ltac:(lia)) as (Hr & _ & Hne & _). fold ds in Hr, Hne.
  rewrite (toString16_neg v Hv). fold ds.
  destruct (Z.ltb_spec v 0); [|lia].
  cbn [length]. rewrite length_map, odd_length_test, Nat.even_succ, <- Nat.negb_even.
  assert (Hinv :
    forall pre : str,
      (pre = ["0"%char; "-"%char] /\ Nat.even (length ds) = true) \/
      (pre = ["-"%char] /\ Nat.even (length ds) = false) ->
      concat (map CognitoSRP.invertNibble (pre ++ map hexDigit ds))
      = map (fun d => toUpperChar (hexDigit d)) (map (fun d => 15 - d) X)).
  { intros pre [[-> Hev]|[-> Hev]]; subst X; rewrite Hev;
      rewrite map_app, concat_app, invert_digits, !map_app by assumption; reflexivity. }
  assert (HX : digitsInRange (map (fun d => 15 - d) X) /\ map (fun d => 15 - d) X <> []).
  { split.
    - apply complement_inRange. subst X. apply Forall_app. split; [|assumption].
      destruct (Nat.even (length ds)); repeat (constructor; [lia|]); constructor.
    - subst X. destruct (Nat.even (length ds)); discriminate. }
  destruct HX as [HrX HneX].
  destruct (Nat.even (length ds)) eqn:Hev; cbn [negb testLeading89af].
  - change (hexDigitValue "0"%char) with (Some 0). cbv iota. change (8 <=? 0) with false. cbv iota.
    change ("0"%char :: "-"%char :: map hexDigit ds)
      with (["0"%char; "-"%char] ++ map hexDigit ds).
    rewrite (Hinv ["0"%char; "-"%char]) by (left; auto).
    rewrite BigInt0x_upper by assumption. reflexivity.
  - change (hexDigitValue "-"%char) with (@None Z). cbv iota.
    change ("-"%char :: map hexDigit ds) with (["-"%char] ++ map hexDigit ds).
    rewrite (Hinv ["-"%char]) by (right; auto).
    rewrite BigInt0x_upper by assumption. reflexivity.
Qed.

Lemma padded_nonempty (ds : list Z) :
  ds <> [] -> Spec.signDigits (Spec.evenDigits ds) <> [].
Proof.
  intros Hne. unfold Spec.evenDigits, Spec.signDigits.
  destruct ds as [|d ds]; [contradiction|].
  destruct (Nat.even (length (d :: ds))); [destruct (8 <=? d)|]; discriminate.
Qed.

Lemma stripFF8_string (ds : list Z) :
  digitsInRange ds ->
  map hexDigit (Spec.stripFF8 ds)
  = if startsWith (lit "FF8") (toUpperCase (map hexDigit ds))
    then substring2 (map hexDigit ds) else map hexDigit ds.
Proof.
  intros Hr. rewrite startsWith_FF8 by assumption.
  destruct ds as [|d1 ds]; [reflexivity|].
  inversion Hr as [|? ? H1 Hr1]; subst.
  each_digit d1; try (destruct ds as [|? [|? ?]]; reflexivity).
  destruct ds as [|d2 ds]; [reflexivity|].
  inversion Hr1 as [|? ? H2 Hr2]; subst.
  each_digit d2; try (destruct ds as [|? ?]; reflexivity).
  destruct ds as [|d3 ds]; [reflexivity|].
  inversion Hr2 as [|? ? H3 _]; subst.
  each_digit d3; reflexivity.
Qed.

(** On every integer the [BigInteger] variant computes the encoding of
    section 4.3. *)
Lemma Legacy_getPaddedHex_pad (v : Z) : Legacy.getPaddedHex v = Spec.pad v.
Proof.
  unfold Legacy.getPaddedHex, Spec.pad, Legacy.bigToString16, Legacy.bigFromString16.
  cbv zeta.
  destruct (hexDigits_spec (Z.abs v) ltac:(lia)) as (Hr & _ & Hne & _).
  destruct (evenDigits_spec _ Hr) as (Hr1 & _ & Hev1).
  destruct (signDigits_spec _ Hr1 Hev1) as (Hr2 & _ & _ & _).
  pose proof (magnitude_string (Z.abs v) ltac:(lia)) as Hpad.
  cbv zeta in Hpad. rewrite Hpad.
  destruct (Z.ltb_spec v 0); [|reflexivity].
  rewrite invert_digits, digitsOf_upper by (try apply complement_inRange; assumption).
  pose proof (hexValue_bound _ (complement_inRange _ Hr2)) as Hb.
  rewrite toString16_nonneg by lia.
  destruct (hexDigits_spec (hexValue (map (fun d => 15 - d)
              (Spec.signDigits (Spec.evenDigits (hexDigits (Z.abs v))))) + 1)
              ltac:(lia)) as (Hr3 & _).
  rewrite stripFF8_string by assumption. reflexivity.
Qed.

Lemma getPaddedHex_nonneg_pad (v : Z) :
  0 <= v -> CognitoSRP.getPaddedHex v = Return (Spec.pad v).
Proof.
  intros Hv. rewrite getPaddedHex_nonneg by assumption.
  unfold Spec.pad. destruct (Z.ltb_spec v 0); [lia|].
  rewrite Z.abs_eq by assumption. reflexivity.
Qed.

Lemma getPaddedHex_decodes (v : Z) :
  exists s, CognitoSRP.getPaddedHex v = Return s /\ Spec.decodeSigned s = Some v.
Proof.
  destruct (Z.lt_ge_cases v 0) as [Hneg|Hpos].
  - rewrite getPaddedHex_neg by assumption. cbv zeta.
    eexists; split; [reflexivity|].
    destruct (hexDigits_spec (- v) ltac:(lia)) as (Hr & Hval & Hne & _).
    pose proof (hexValue_bound _ Hr) as Hb. rewrite Hval in Hb.
    set (ds := hexDigits (- v)) in *.
    set (X := (if Nat.even (length ds) then [0; 0] else [0]) ++ ds).
    assert (HvX : hexValue X = - v).
    { unfold X. rewrite hexValue_app, Hval.
      destruct (Nat.even (length ds)); cbn; lia. }
    assert (HrX : digitsInRange X).
    { unfold X. apply Forall_app. split; [|assumption].
      destruct (Nat.even (length ds)); repeat (constructor; [lia|]); constructor. }
    assert (HevX : Nat.even (length X) = true).
    { unfold X. rewrite length_app.
      destruct (Nat.even (length ds)) eqn:Hev; cbn [length Nat.add].
      - exact Hev.
      - rewrite Nat.even_succ, <- Nat.negb_even, Hev. reflexivity. }
    assert (HlenX : Z.of_nat (length ds) <= Z.of_nat (length X) - 1).
    { unfold X. rewrite length_app. destruct (Nat.even (length ds)); cbn [length]; lia. }
    assert (Hbound : 0 < hexValue X <= 8 * 16 ^ (Z.of_nat (length X) - 1)).
    { rewrite HvX. split; [lia|].
      pose proof (Z.pow_le_mono_r 16 _ _ ltac:(lia) HlenX). lia. }
    pose proof (twos_complement_decode X HrX HevX Hbound) as Hdec. cbv zeta in Hdec.
    rewrite Hdec. f_equal. lia.
  - rewrite getPaddedHex_nonneg by assumption.
    eexists; split; [reflexivity|].
    destruct (hexDigits_spec v Hpos) as (Hr & Hval & Hne & _).
    destruct (evenDigits_spec _ Hr) as (Hr1 & Hv1 & Hev1).
    destruct (signDigits_spec _ Hr1 Hev1) as (Hr2 & Hv2 & Hev2 & Hhd).
    rewrite decodeSigned_digits; try assumption.
    + rewrite Hhd, Hv2, Hv1, Hval. reflexivity.
    + apply padded_nonempty. assumption.
Qed.

Lemma Legacy_getPaddedHex_decodes (v : Z) :
  Spec.decodeSigned (Legacy.getPaddedHex v) = Some v.
Proof.
  destruct (Z.lt_ge_cases v 0) as [Hneg|Hpos].
  - unfold Legacy.getPaddedHex, Legacy.bigToString16, Legacy.bigFromString16. cbv zeta.
    destruct (hexDigits_spec (Z.abs v) ltac:(lia)) as (Hr & Hval & Hne & _).
    destruct (evenDigits_spec _ Hr) as (Hr1 & Hv1 & Hev1).
    destruct (signDigits_spec _ Hr1 Hev1) as (Hr2 & Hv2 & Hev2 & Hhd).
    pose proof (magnitude_string (Z.abs v) ltac:(lia)) as Hn.
    cbv zeta in Hn. rewrite Hn.
    destruct (Z.ltb_spec v 0); [|lia].
    rewrite invert_digits, digitsOf_upper by (try apply complement_inRange; assumption).
    set (X := Spec.signDigits (Spec.evenDigits (hexDigits (Z.abs v)))) in *.
    assert (HvX : hexValue X = - v) by lia.
    assert (Hbound : 0 < hexValue X <= 8 * 16 ^ (Z.of_nat (length X) - 1)).
    { rewrite HvX. split; [lia|]. clearbody X.
      destruct X as [|d X']; [cbn in HvX; lia|]. cbn [hd] in Hhd. apply Z.leb_gt in Hhd.
      pose proof (hexValue_leading d X' Hr2) as Hl. rewrite HvX in Hl.
      cbn [length]. replace (Z.of_nat (S (length X')) - 1) with (Z.of_nat (length X')) by lia.
      assert (0 < 16 ^ Z.of_nat (length X')) by (apply Z.pow_pos_nonneg; lia). nia. }
    pose proof (twos_complement_decode X Hr2 Hev2 Hbound) as Hdec. cbv zeta in Hdec.
    rewrite Hdec. f_equal. lia.
  - rewrite Legacy_getPaddedHex_pad. 
    pose proof (getPaddedHex_nonneg_pad v Hpos) as Hn.
    destruct (getPaddedHex_decodes v) as (s & Hs & Hd).
    rewrite Hn in Hs. injection Hs as <-. exact Hd.
Qed.

End HexDigits.

(** ** Properties of the protocol engine *)

Section Protocol.

Lemma N_gt_1 : 1 < CognitoSRP.N.
Proof. reflexivity. Qed.

Lemma N_coprime_g : Z.gcd CognitoSRP.g CognitoSRP.N = 1.
Proof. vm_compute. reflexivity. Qed.

Lemma g_pow_mod_N (e : Z) : 0 <= e -> (CognitoSRP.g ^ e mod CognitoSRP.N) mod CognitoSRP.N <> 0.
Proof.
  intros He Hz. rewrite Z.mod_mod in Hz by (pose proof N_gt_1; lia).
  pose proof (gcd_pow_mod_coprime CognitoSRP.g e CognitoSRP.N He N_gt_1 N_coprime_g) as Hg.
  rewrite Hz, Z.gcd_0_l, Z.abs_eq in Hg; pose proof N_gt_1; lia.
Qed.

Lemma hexDigitValue_range (c : ascii) (d : Z) :
  hexDigitValue c = Some d -> 0 <= d < 16.
Proof.
  unfold hexDigitValue.
  repeat match goal with
         | |- context [if ?b then _ else _] => destruct b eqn:?
         end; intros [= <-]; lia.
Qed.

Lemma digitsOf_inRange (s : str) : digitsInRange (digitsOf s).
Proof.
  induction s as [|c s IH]; constructor; [|exact IH].
  destruct (hexDigitValue c) eqn:Hc; [eapply hexDigitValue_range; eassumption|lia].
Qed.

Lemma span_spec {X : Type} (p : X -> bool) (l : list X) :
  l = fst (span p l) ++ snd (span p l) /\ forallb p (fst (span p l)) = true.
Proof.
  induction l as [|x l [IH1 IH2]]; [split; reflexivity|].
  cbn [span]. destruct (p x) eqn:Hp; [|split; reflexivity].
  destruct (span p l) as [a b]. cbn [fst snd] in *. split.
  - cbn. f_equal. exact IH1.
  - cbn. rewrite Hp. exact IH2.
Qed.

Lemma BigInt0x_nonneg (s : str) (v : Z) : BigInt0x s = Some v -> 0 <= v.
Proof.
  unfold BigInt0x. destruct (span isHexDigit s) as [ds rest].
  destruct ds as [|c ds]; [discriminate|].
  destruct (forallb isStrWhiteSpace rest); [|discriminate].
  intros [= <-]. exact (proj1 (hexValue_bound _ (digitsOf_inRange (c :: ds)))).
Qed.

(** A character that is neither a hex digit nor white space makes
    [BigInt] reject the string. *)
Lemma BigInt0x_rejects (s : str) (c : ascii) :
  In c s -> isHexDigit c = false -> isStrWhiteSpace c = false -> BigInt0x s = None.
Proof.
  intros Hin Hhex Hws. unfold BigInt0x.
  destruct (span_spec isHexDigit s) as [Hs Hall].
  destruct (span isHexDigit s) as [ds rest]. cbn [fst snd] in *.
  destruct ds; [reflexivity|].
  destruct (forallb isStrWhiteSpace rest) eqn:Hrest; [|reflexivity].
  rewrite Hs in Hin. apply in_app_or in Hin as [Hin|Hin].
  - rewrite forallb_forall in Hall. rewrite (Hall c Hin) in Hhex. discriminate.
  - rewrite forallb_forall in Hrest. rewrite (Hrest c Hin) in Hws. discriminate.
Qed.

Lemma BigInt0x_empty : BigInt0x [] = None.
Proof. reflexivity. Qed.

Lemma byte_hex (b : byte) :
  padStart2 (toString16 (byteValue b))
  = [hexDigit (byteValue b / 16); hexDigit (byteValue b mod 16)].
Proof. destruct b; reflexivity. Qed.

Lemma byteValue_range (b : byte) : 0 <= byteValue b < 256.
Proof.
  unfold byteValue. pose proof (Byte.to_N_bounded b). lia.
Qed.

Lemma getHexFromBytes_digits (bytes : list byte) :
  CognitoSRP.getHexFromBytes bytes = map hexDigit (byteDigits bytes) /\
  digitsInRange (byteDigits bytes) /\
  length (byteDigits bytes) = (2 * length bytes)%nat.
Proof.
  unfold CognitoSRP.getHexFromBytes, byteDigits.
  induction bytes as [|b bytes (IH1 & IH2 & IH3)]; [repeat split; constructor|].
  cbn [map concat flat_map]. rewrite byte_hex, IH1, map_app.
  pose proof (byteValue_range b) as Hb.
  split; [reflexivity|]. split.
  - apply Forall_app. split; [|exact IH2].
    constructor; [|constructor; [|constructor]].
    + split; [apply Z.div_pos; lia|apply Z.div_lt_upper_bound; lia].
    + apply Z.mod_pos_bound; lia.
  - rewrite length_app, IH3. cbn [length]. lia.
Qed.

(** The private exponent read from a non-empty buffer of [n] bytes. *)
Lemma BigInt0x_bytes (bytes : list byte) :
  bytes <> [] ->
  exists a', BigInt0x (CognitoSRP.getHexFromBytes bytes) = Some a' /\
             0 <= a' < 2 ^ (8 * Z.of_nat (length bytes)).
Proof.
  intros Hne. destruct (getHexFromBytes_digits bytes) as (Heq & Hr & Hlen).
  rewrite Heq, BigInt0x_allHex, digitsOf_hexDigit.
  2: assumption.
  2:{ destruct bytes; [contradiction|discriminate]. }
  2:{ apply allHex_hexDigit. assumption. }
  eexists; split; [reflexivity|].
  pose proof (hexValue_bound _ Hr) as Hb. rewrite Hlen in Hb.
  replace (8 * Z.of_nat (length bytes)) with (4 * Z.of_nat (2 * length bytes)) by lia.
  rewrite Z.pow_mul_r by lia. exact Hb.
Qed.

Lemma calculateU_reads_A (E : Externals) (this this' : CognitoSRP.engine) (B : Z) :
  CognitoSRP.A this = CognitoSRP.A this' ->
  CognitoSRP.calculateU this B = CognitoSRP.calculateU this' B.
Proof. intros HA. unfold CognitoSRP.calculateU. rewrite HA. reflexivity. Qed.

(** The run of [calculatePasswordClaimSignature] up to the check of [B]. *)
Lemma signature_after_B
    (E : Externals) (fuel : nat) (now : Date) (password : str)
    (cp : CognitoSRP.challengeParameters) (this : CognitoSRP.engine) (B : Z) :
  BigInt0x (CognitoSRP.SRP_B cp) = Some B ->
  (B mod CognitoSRP.N = 0 ->
   fst (CognitoSRP.calculatePasswordClaimSignature fuel now password cp this)
   = Throw (JsError (lit "Invalid server public key"))) /\
  (B mod CognitoSRP.N <> 0 ->
   forall e : exn,
     CognitoSRP.calculateU this B = Throw e ->
     fst (CognitoSRP.calculatePasswordClaimSignature fuel now password cp this) = Throw e) /\
  (B mod CognitoSRP.N <> 0 ->
   forall U : Z,
     CognitoSRP.calculateU this B = Return U ->
     BigInt0x (CognitoSRP.SALT cp) = None ->
     fst (CognitoSRP.calculatePasswordClaimSignature fuel now password cp this)
     = Throw SyntaxError).
Proof.
  intros HB. pose proof (BigInt0x_nonneg _ _ HB) as HB0. pose proof N_gt_1 as HN.
  unfold CognitoSRP.calculatePasswordClaimSignature. cbn [fst].
  rewrite HB. cbn [CognitoSRP.fromOption bind].
  rewrite rem_nonneg_mod by lia.
  set (this1 := {| CognitoSRP.userPoolName := CognitoSRP.userPoolName this;
                   CognitoSRP.k := CognitoSRP.k this;
                   CognitoSRP.a := CognitoSRP.a this;
                   CognitoSRP.A := CognitoSRP.A this;
                   CognitoSRP.timestamp := Some (CognitoSRP.createTimestamp now) |}).
  rewrite (calculateU_reads_A E this1 this B) by reflexivity.
  split; [|split]; intros HBN.
  - destruct (Z.eqb_spec (B mod CognitoSRP.N) 0); [reflexivity|contradiction].
  - intros e HU. destruct (Z.eqb_spec (B mod CognitoSRP.N) 0); [contradiction|].
    rewrite HU. reflexivity.
  - intros U HU Hsalt. destruct (Z.eqb_spec (B mod CognitoSRP.N) 0); [contradiction|].
    rewrite HU. cbn [bind]. rewrite Hsalt. reflexivity.
Qed.

(** The [BigInteger] variant of [calculateS], for a [modPow] of the missing
    module that meets the contract of section 4.1 on the group modulus. *)
Lemma Legacy_calculateS_shared_secret
    (bigModPow : Z -> Z -> Z -> exn + Z) (this : Legacy.engine) (x B U : Z) :
  (forall b e : Z, 0 <= e -> bigModPow b e CognitoSRP.N = inr (b ^ e mod CognitoSRP.N)) ->
  0 <= x -> 0 <= Legacy.a this + U * x ->
  Legacy.calculateS bigModPow this x B U
  = Return ((B - Legacy.k this * (CognitoSRP.g ^ x mod CognitoSRP.N))
              ^ (Legacy.a this + U * x) mod CognitoSRP.N).
Proof.
  intros Hpow Hx Ht. unfold Legacy.calculateS, Legacy.bigMod.
  rewrite !Hpow by assumption.
  rewrite Z.mod_mod by (pose proof N_gt_1; lia). reflexivity.
Qed.

End Protocol.

(** ** The claims *)

(** C1. [getPaddedHex] follows the steps of section 4.3 ([Spec.pad]) on
    every non-negative integer, and the [BigInteger] variant follows them on
    every integer; the [bigint] variant prints the sign instead of taking
    the absolute value, and on [-16] returns [fff0] where the steps give
    [f0]. *)
Theorem getPaddedHex_steps :
  (forall v : Z, 0 <= v -> CognitoSRP.getPaddedHex v = Return (Spec.pad v)) /\
  (forall v : Z, Legacy.getPaddedHex v = Spec.pad v) /\
  CognitoSRP.getPaddedHex (-16) = Return (lit "fff0") /\
  Spec.pad (-16) = lit "f0".
Proof.
  split; [exact getPaddedHex_nonneg_pad|].
  split; [exact Legacy_getPaddedHex_pad|].
  split; vm_compute; reflexivity.
Qed.

(** C2. For every integer [v], [getPaddedHex v] returns a hex string that,
    decoded as a big-endian two's-complement byte string, is [v]; so does
    the [BigInteger] variant. *)
Theorem getPaddedHex_roundtrip (v : Z) :
  (exists s, CognitoSRP.getPaddedHex v = Return s /\ Spec.decodeSigned s = Some v) /\
  Spec.decodeSigned (Legacy.getPaddedHex v) = Some v.
Proof.
  split; [apply getPaddedHex_decodes|apply Legacy_getPaddedHex_decodes].
Qed.

(** C3. With a stored exponent [a], a private key [x >= 0] and an exponent
    [a + u * x >= 0], [calculateS] returns
    [(B - k * (g ^ x mod N)) ^ (a + u * x) mod N], a value of [[0, N)],
    as soon as the fuel covers the bits of the two exponents. *)
Theorem calculateS_shared_secret
    (fuel : nat) (this : CognitoSRP.engine) (x B U a' : Z) :
  CognitoSRP.a this = Some a' ->
  0 <= x -> 0 <= a' + U * x ->
  x < 2 ^ Z.of_nat fuel -> a' + U * x < 2 ^ Z.of_nat fuel ->
  CognitoSRP.calculateS fuel this x B U
  = Return ((B - CognitoSRP.k this * (CognitoSRP.g ^ x mod CognitoSRP.N))
              ^ (a' + U * x) mod CognitoSRP.N) /\
  0 <= (B - CognitoSRP.k this * (CognitoSRP.g ^ x mod CognitoSRP.N))
         ^ (a' + U * x) mod CognitoSRP.N < CognitoSRP.N.
Proof.
  intros Ha Hx Ht2 Hfx Hft. pose proof N_gt_1 as HN. split.
  - unfold CognitoSRP.calculateS.
    rewrite modPow_nonneg by assumption. cbn [bind].
    rewrite Ha. cbn [CognitoSRP.fromOption bind].
    rewrite modPow_nonneg by assumption.
    do 3 f_equal. ring.
  - apply Z.mod_pos_bound. lia.
Qed.

Lemma calculateS_shared_secret_witness :
  CognitoSRP.calculateS 4 Sample.challenged 3 100 2
  = Return ((100 - CognitoSRP.k Sample.challenged * (CognitoSRP.g ^ 3 mod CognitoSRP.N))
              ^ (5 + 2 * 3) mod CognitoSRP.N) /\
  0 <= (100 - CognitoSRP.k Sample.challenged * (CognitoSRP.g ^ 3 mod CognitoSRP.N))
         ^ (5 + 2 * 3) mod CognitoSRP.N < CognitoSRP.N.
Proof.
  apply (calculateS_shared_secret 4 Sample.challenged 3 100 2 5);
    [reflexivity|lia|lia|reflexivity|reflexivity].
Defined.

(** C4. For an exponent [e >= 0] and a modulus [m >= 1], [modPow] returns
    [b ^ e mod m], which lies in [[0, m)]; it returns 0 when [m = 1], and 1
    on the exponent 0 when [m > 1]. *)
Theorem modPow_contract (fuel : nat) (b e m : Z) :
  0 <= e -> 1 <= m -> e < 2 ^ Z.of_nat fuel ->
  modPow fuel b e m = Return (b ^ e mod m) /\
  0 <= b ^ e mod m < m /\
  (m = 1 -> modPow fuel b e m = Return 0) /\
  (1 < m -> modPow fuel b 0 m = Return 1).
Proof.
  intros He Hm Hfuel. split; [|split; [|split]].
  - apply modPow_returns; assumption.
  - apply Z.mod_pos_bound. lia.
  - intros ->. apply modPow_modulus_one.
  - intros Hm1.
    assert (Hzero : 0 < 2 ^ Z.of_nat fuel) by (apply Z.pow_pos_nonneg; lia).
    rewrite modPow_nonneg by lia.
    rewrite Z.pow_0_r, Z.mod_small by lia. reflexivity.
Qed.

Lemma modPow_contract_witness :
  modPow 3 (-3) 5 7 = Return ((-3) ^ 5 mod 7) /\
  0 <= (-3) ^ 5 mod 7 < 7 /\
  (7 = 1 -> modPow 3 (-3) 5 7 = Return 0) /\
  (1 < 7 -> modPow 3 (-3) 0 7 = Return 1).
Proof.
  apply (modPow_contract 3 (-3) 5 7); [lia|lia|reflexivity].
Defined.

(** C5. For an exponent [e < 0] and a modulus [m > 1], with fuel for the
    bits of [- e] and for the [m] turns of Euclid's loop: when
    [gcd b m = 1], [modPow b e m] is the inverse of [modPow b (- e) m]
    modulo [m]; otherwise it throws a [RangeError]. *)
Theorem modPow_negative_exponent (fuel : nat) (b e m : Z) :
  e < 0 -> 1 < m -> - e < 2 ^ Z.of_nat fuel -> m <= Z.of_nat fuel ->
  (Z.gcd b m = 1 ->
   exists r p, modPow (S fuel) b e m = Return r /\
               modPow (S fuel) b (- e) m = Return p /\
               (r * p) mod m = 1) /\
  (Z.gcd b m <> 1 -> exists msg, modPow (S fuel) b e m = Throw (RangeError msg)).
Proof.
  intros He Hm Hbits Hturns.
  assert (Hrun : modPow (S fuel) b e m
                 = (p <- Return ((b ^ (- e)) mod m) ;; modInv fuel p m)).
  { cbn [modPow].
    destruct (Z.ltb_spec m 1); [lia|]. destruct (Z.eqb_spec m 1); [lia|].
    rewrite toZn_mod by lia. cbn [bind].
    destruct (Z.ltb_spec e 0); [|lia].
    rewrite Z.geb_leb. destruct (Z.leb_spec 0 e); [lia|].
    rewrite modPow_nonneg by lia. rewrite Z.mod_pow_l. reflexivity. }
  cbn [bind] in Hrun.
  pose proof (Z.mod_pos_bound (b ^ (- e)) m ltac:(lia)) as Hp.
  split; intros Hgcd.
  - destruct (modInv_coprime fuel (b ^ (- e) mod m) m) as (r & Hr & _ & Hinv);
      try lia.
    { apply gcd_pow_mod_coprime; lia. }
    exists r, (b ^ (- e) mod m). split; [congruence|]. split; [|exact Hinv].
    apply modPow_nonneg; try lia.
    rewrite Nat2Z.inj_succ, Z.pow_succ_r by lia. lia.
  - destruct (modInv_no_inverse fuel (b ^ (- e) mod m) m) as (msg & Hmsg); try lia.
    { apply gcd_pow_mod_common; lia. }
    exists msg. congruence.
Qed.

Lemma modPow_negative_exponent_witness :
  (Z.gcd 3 7 = 1 ->
   exists r p, modPow 8 3 (-2) 7 = Return r /\ modPow 8 3 (- -2) 7 = Return p /\
               (r * p) mod 7 = 1) /\
  (Z.gcd 3 7 <> 1 -> exists msg, modPow 8 3 (-2) 7 = Throw (RangeError msg)).
Proof.
  apply (modPow_negative_exponent 7 3 (-2) 7); [lia|lia|reflexivity|lia].
Defined.




(** C7. When [SRP_B] denotes a [B] with [B mod N = 0], and when the [u]
    derived from [A] and [B] is 0, [calculatePasswordClaimSignature] throws
    the protocol error of that check and returns no signature, whatever the
    fuel: [calculateS] is not reached. *)
Theorem claim_signature_protocol_abort
    (E : Externals) (fuel : nat) (now : Date) (password : str)
    (cp : CognitoSRP.challengeParameters) (this : CognitoSRP.engine) (B : Z) :
  BigInt0x (CognitoSRP.SRP_B cp) = Some B ->
  (B mod CognitoSRP.N = 0 ->
   fst (CognitoSRP.calculatePasswordClaimSignature fuel now password cp this)
   = Throw (JsError (lit "Invalid server public key"))) /\
  (B mod CognitoSRP.N <> 0 ->
   forall (A' : Z) (hexA hexB : str) (bytes : list byte),
     CognitoSRP.A this = Some A' ->
     CognitoSRP.getPaddedHex A' = Return hexA ->
     CognitoSRP.getPaddedHex B = Return hexB ->
     CognitoSRP.getBytesFromHex (hexA ++ hexB) = Return bytes ->
     BigInt0x (CognitoSRP.getHexFromBytes (CognitoSRP.createHash (SDBytes bytes) None))
     = Some 0 ->
     fst (CognitoSRP.calculatePasswordClaimSignature fuel now password cp this)
     = Throw (JsError (lit "U cannot be zero."))).
Proof.
  intros HB.
  destruct (signature_after_B E fuel now password cp this B HB) as (Hzero & Hu & _).
  split; [exact Hzero|].
  intros HBN A' hexA hexB bytes HA HhA HhB Hbytes Hhash.
  apply Hu; [assumption|].
  unfold CognitoSRP.calculateU.
  rewrite HA. cbn [CognitoSRP.fromOption bind].
  rewrite HhA, HhB. cbn [bind]. rewrite Hbytes. cbn [bind].
  rewrite Hhash. reflexivity.
Qed.

Lemma claim_signature_protocol_abort_witness :
  fst (CognitoSRP.calculatePasswordClaimSignature (H := Sample.zeroHash)
         0 Sample.now (lit "pw") (Sample.challenge "0" "1f") Sample.challenged)
  = Throw (JsError (lit "Invalid server public key")) /\
  fst (CognitoSRP.calculatePasswordClaimSignature (H := Sample.zeroHash)
         0 Sample.now (lit "pw") (Sample.challenge "1" "1f") Sample.challenged)
  = Throw (JsError (lit "U cannot be zero.")).
Proof.
  split.
  - apply (proj1 (claim_signature_protocol_abort Sample.zeroHash 0 Sample.now (lit "pw")
                    (Sample.challenge "0" "1f") Sample.challenged 0 eq_refl)).
    reflexivity.
  - apply (proj2 (claim_signature_protocol_abort Sample.zeroHash 0 Sample.now (lit "pw")
                    (Sample.challenge "1" "1f") Sample.challenged 1 eq_refl))
      with (A' := 32) (hexA := lit "20") (hexB := lit "01") (bytes := [x20; x01]);
      try reflexivity.
    vm_compute. discriminate.
Defined.

(** C8. For [a >= 1] and [b >= 1], [eGcd] returns [(g, x, y)] with
    [g = gcd a b] and [g = a * x + b * y], given fuel for [a] turns of the
    loop; for [a < 1] or [b < 1] it throws a [RangeError]. *)
Theorem eGcd_bezout (fuel : nat) (a b : Z) :
  (1 <= a -> 1 <= b -> a <= Z.of_nat fuel ->
   exists r, eGcd fuel a b = Return r /\
             BigIntUtils.g r = Z.gcd a b /\
             BigIntUtils.g r = a * BigIntUtils.x r + b * BigIntUtils.y r) /\
  (a < 1 \/ b < 1 -> eGcd fuel a b = Throw (RangeError (lit "a and b must be > 0"))).
Proof.
  split; [apply eGcd_spec|apply eGcd_domain].
Qed.

Lemma eGcd_bezout_witness :
  (exists r, eGcd 12 12 18 = Return r /\
             BigIntUtils.g r = Z.gcd 12 18 /\
             BigIntUtils.g r = 12 * BigIntUtils.x r + 18 * BigIntUtils.y r) /\
  eGcd 12 0 18 = Throw (RangeError (lit "a and b must be > 0")).
Proof.
  split.
  - apply (proj1 (eGcd_bezout 12 12 18)); lia.
  - apply (proj2 (eGcd_bezout 12 0 18)); lia.
Defined.

(** C9, as the code has it.  [calculatePasswordClaimSignature] has no
    check of its own on [SALT] and [SRP_B]: a string that [BigInt] rejects
    (the empty string, or one holding a character that is neither a hex
    digit nor white space) ends the call with the [SyntaxError] of the
    conversion, at once for [SRP_B] and after the checks of [B] and [u]
    for [SALT]; a non-empty string of hex digits is read as the integer it
    denotes, whatever the parity of its length. *)
Theorem malformed_hex_syntax_error
    (E : Externals) (fuel : nat) (now : Date) (password : str)
    (cp : CognitoSRP.challengeParameters) (this : CognitoSRP.engine) :
  (BigInt0x (CognitoSRP.SRP_B cp) = None ->
   fst (CognitoSRP.calculatePasswordClaimSignature fuel now password cp this)
   = Throw SyntaxError) /\
  (forall B U : Z,
      BigInt0x (CognitoSRP.SRP_B cp) = Some B -> B mod CognitoSRP.N <> 0 ->
      CognitoSRP.calculateU this B = Return U ->
      BigInt0x (CognitoSRP.SALT cp) = None ->
      fst (CognitoSRP.calculatePasswordClaimSignature fuel now password cp this)
      = Throw SyntaxError) /\
  (forall (s : str) (c : ascii),
      In c s -> isHexDigit c = false -> isStrWhiteSpace c = false ->
      BigInt0x s = None) /\
  BigInt0x [] = None /\
  (forall s : str,
      s <> [] -> forallb isHexDigit s = true ->
      BigInt0x s = Some (hexValue (digitsOf s))).
Proof.
  split; [|split; [|split; [|split]]].
  - intros HB. unfold CognitoSRP.calculatePasswordClaimSignature. cbn [fst].
    rewrite HB. reflexivity.
  - intros B U HB HBN HU Hsalt.
    destruct (signature_after_B E fuel now password cp this B HB) as (_ & _ & Hs).
    eapply Hs; eassumption.
  - exact BigInt0x_rejects.
  - reflexivity.
  - exact BigInt0x_allHex.
Qed.

Lemma malformed_hex_syntax_error_witness :
  fst (CognitoSRP.calculatePasswordClaimSignature (H := Sample.unitHash)
         10 Sample.now (lit "pw") (Sample.challenge "zz" "1f") Sample.challenged)
  = Throw SyntaxError /\
  fst (CognitoSRP.calculatePasswordClaimSignature (H := Sample.unitHash)
         10 Sample.now (lit "pw") (Sample.challenge "ab" "1g") Sample.challenged)
  = Throw SyntaxError /\
  BigInt0x (lit "abc") = Some (hexValue (digitsOf (lit "abc"))).
Proof.
  split; [|split].
  - apply (proj1 (malformed_hex_syntax_error Sample.unitHash 10 Sample.now (lit "pw")
                    (Sample.challenge "zz" "1f") Sample.challenged)).
    reflexivity.
  - apply (proj1 (proj2 (malformed_hex_syntax_error Sample.unitHash 10 Sample.now (lit "pw")
                    (Sample.challenge "ab" "1g") Sample.challenged)) 171 1);
      try reflexivity.
    vm_compute. discriminate.
  - apply (proj2 (proj2 (proj2 (proj2
             (malformed_hex_syntax_error Sample.unitHash 10 Sample.now (lit "pw")
                (Sample.challenge "ab" "1g") Sample.challenged)))));
      [discriminate|reflexivity].
Defined.

(** C9, as stated, fails: on an instance built by [construct] and
    [calculateSRPAValue], with an [SRP_B], or a [SALT], of odd length the
    call raises nothing and returns a signature. *)
Lemma odd_length_hex_accepted :
  CognitoSRP.construct (H := Sample.unitHash) (lit "pool")
  = Return {| CognitoSRP.userPoolName := lit "pool"; CognitoSRP.k := 1;
              CognitoSRP.a := None; CognitoSRP.A := None;
              CognitoSRP.timestamp := None |} /\
  snd (CognitoSRP.calculateSRPAValue 128 Sample.buffer5
         {| CognitoSRP.userPoolName := lit "pool"; CognitoSRP.k := 1;
            CognitoSRP.a := None; CognitoSRP.A := None;
            CognitoSRP.timestamp := None |})
  = Sample.challenged /\
  Spec.malformedHex (lit "abc") = true /\
  (exists signature,
      fst (CognitoSRP.calculatePasswordClaimSignature (H := Sample.unitHash)
             10 Sample.now (lit "pw") (Sample.challenge "abc" "1f") Sample.challenged)
      = Return signature) /\
  (exists signature,
      fst (CognitoSRP.calculatePasswordClaimSignature (H := Sample.unitHash)
             10 Sample.now (lit "pw") (Sample.challenge "ab" "abc") Sample.challenged)
      = Return signature).
Proof.
  split; [vm_compute; reflexivity|].
  split; [vm_compute; reflexivity|].
  split; [reflexivity|].
  split; eexists; vm_compute; reflexivity.
Qed.

(** C10. With [e >= 0] and [m >= 1] the loop of [modPow] ends within as
    many turns as [e] has bits, and with [a >= 1] and [b >= 1] the loop of
    [eGcd] ends within [a] turns: the exponent is halved, and the first
    variable replaced by a smaller remainder, at every turn. *)
Theorem loops_terminate :
  (forall (fuel : nat) (b e m : Z),
      0 <= e -> 1 <= m -> e < 2 ^ Z.of_nat fuel ->
      exists v, modPow fuel b e m = Return v) /\
  (forall (fuel : nat) (r y x m : Z),
      y < 2 ^ Z.of_nat fuel -> exists v, modPowLoop fuel r y x m = Return v) /\
  (forall (fuel : nat) (a b : Z),
      1 <= a -> 1 <= b -> a <= Z.of_nat fuel ->
      exists r, eGcd fuel a b = Return r) /\
  (forall y : Z, 0 < y -> 0 <= Z.quot y 2 < y) /\
  (forall a b : Z, 0 < a -> 0 <= b -> 0 <= Z.rem b a < a).
Proof.
  split; [|split; [|split; [|split]]].
  - intros fuel b e m He Hm Hfuel.
    exists (b ^ e mod m). apply modPow_returns; assumption.
  - intros fuel r y x m. apply modPowLoop_terminates.
  - intros fuel a b Ha Hb Hfuel.
    destruct (eGcd_spec fuel a b Ha Hb Hfuel) as (r & Hr & _). exists r. exact Hr.
  - intros y Hy. rewrite quot_nonneg_div by lia.
    split; [apply Z.div_pos; lia|apply Z.div_lt_upper_bound; lia].
  - intros a b Ha Hb. rewrite rem_nonneg_mod by lia. apply Z.mod_pos_bound. lia.
Qed.

Lemma loops_terminate_witness :
  (exists v, modPow 3 (-3) 5 7 = Return v) /\
  (exists r, eGcd 12 12 18 = Return r) /\
  0 <= Z.quot 5 2 < 5 /\ 0 <= Z.rem 18 12 < 12.
Proof.
  destruct loops_terminate as (Hpow & _ & Hgcd & Hhalf & Hrem).
  split; [apply (Hpow 3%nat (-3) 5 7); [lia|lia|reflexivity]|].
  split; [apply (Hgcd 12%nat 12 18); lia|].
  split; [apply (Hhalf 5); lia|apply (Hrem 12 18); lia].
Defined.

(** * Further properties *)

Section Bytes.

Lemma byte_pair (b : byte) :
  forall h l : ascii,
    padStart2 (toString16 (byteValue b)) = [h; l] ->
    isLineTerminator h = false /\ isLineTerminator l = false /\
    toUint8 (parseInt16 [h; l]) = b.
Proof.
  intros h l. destruct b; intros [= <- <-]; repeat split; reflexivity.
Qed.

Lemma matchPairs_cons (h l : ascii) (rest : str) :
  isLineTerminator h = false -> isLineTerminator l = false ->
  matchPairs (h :: l :: rest) = [h; l] :: matchPairs rest.
Proof.
  intros Hh Hl. cbn [matchPairs]. rewrite Hh, Hl. reflexivity.
Qed.

Lemma matchPairs_bytes (bytes : list byte) :
  map (fun hex => toUint8 (parseInt16 hex)) (matchPairs (CognitoSRP.getHexFromBytes bytes))
  = bytes.
Proof.
  induction bytes as [|b bytes IH]; [reflexivity|].
  unfold CognitoSRP.getHexFromBytes in *. cbn [map concat].
  rewrite byte_hex.
  destruct (byte_pair b _ _ (byte_hex b)) as (Hh & Hl & Hb).
  cbn [app]. rewrite matchPairs_cons by assumption.
  cbn [map]. rewrite Hb, IH. reflexivity.
Qed.

Lemma getBytesFromHex_getHexFromBytes (bytes : list byte) :
  bytes <> [] ->
  CognitoSRP.getBytesFromHex (CognitoSRP.getHexFromBytes bytes) = Return bytes.
Proof.
  intros Hne. unfold CognitoSRP.getBytesFromHex, matchAllPairs.
  pose proof (matchPairs_bytes bytes) as Hm.
  destruct (matchPairs (CognitoSRP.getHexFromBytes bytes)) as [|p ps].
  - cbn in Hm. congruence.
  - rewrite Hm. reflexivity.
Qed.

Lemma hexDigit_char (c : ascii) (h : Z) :
  hexDigitValue c = Some h ->
  0 <= h < 16 /\ isLineTerminator c = false /\ isStrWhiteSpace c = false /\
  (code c =? 45) = false /\ (code c =? 43) = false /\
  (code c =? 120) = false /\ (code c =? 88) = false.
Proof.
  unfold hexDigitValue, isLineTerminator, isStrWhiteSpace.
  set (n := code c).
  destruct (Z.leb_spec 48 n), (Z.leb_spec n 57), (Z.leb_spec 97 n),
    (Z.leb_spec n 102), (Z.leb_spec 65 n), (Z.leb_spec n 70);
    cbn [andb]; intros [= <-];
    repeat match goal with
           | |- context [?a =? ?b] => destruct (Z.eqb_spec a b); try lia
           end;
    cbn [orb]; repeat split; try reflexivity; lia.
Qed.

Lemma parseInt16_pair (c1 c2 : ascii) (h l : Z) :
  hexDigitValue c1 = Some h -> hexDigitValue c2 = Some l ->
  parseInt16 [c1; c2] = Some (h * 16 + l).
Proof.
  intros H1 H2.
  destruct (hexDigit_char c1 h H1) as (_ & _ & Hws & Hm & Hp & _).
  destruct (hexDigit_char c2 l H2) as (_ & _ & _ & _ & _ & Hx & HX).
  unfold parseInt16. cbn [dropWhile]. rewrite Hws, Hm, Hp, Hx, HX.
  cbn [orb]. rewrite andb_false_r. cbn [span]. unfold isHexDigit.
  rewrite H1, H2. cbn [digitsOf map]. rewrite H1, H2.
  unfold hexValue. cbn [fold_left]. f_equal. lia.
Qed.

Lemma byteValue_toUint8 (v : Z) :
  0 <= v < 256 -> byteValue (toUint8 (Some v)) = v.
Proof.
  intros Hv. unfold byteValue, toUint8. rewrite Z.mod_small by assumption.
  destruct (Byte.of_N (Z.to_N v)) as [b|] eqn:Hb.
  - apply Byte.to_of_N in Hb. rewrite Hb. lia.
  - apply Byte.of_N_None_iff in Hb. lia.
Qed.

(** [getBytesFromHex] on a string made of pairs of hex digits. *)
Lemma matchPairs_hexPairs :
  forall (s : str) (vals : list Z),
    Spec.hexPairs s = Some vals ->
    map (fun hex => toUint8 (parseInt16 hex)) (matchPairs s)
    = map (fun v => toUint8 (Some v)) vals /\
    Forall (fun v => 0 <= v < 256) vals /\
    (forall c : ascii, matchPairs (s ++ [c]) = matchPairs s).
Proof.
  fix IH 1. intros [|c1 [|c2 s]] vals; cbn [Spec.hexPairs].
  - intros [= <-]. repeat split; constructor.
  - discriminate.
  - destruct (hexDigitValue c1) as [h|] eqn:H1; [|discriminate].
    destruct (hexDigitValue c2) as [l|] eqn:H2; [|discriminate].
    destruct (Spec.hexPairs s) as [bs|] eqn:Hs; [|discriminate].
    intros [= <-]. destruct (IH s bs Hs) as (IH1 & IH2 & IH3).
    destruct (hexDigit_char c1 h H1) as (Hh & Hlt1 & _).
    destruct (hexDigit_char c2 l H2) as (Hl & Hlt2 & _).
    repeat split.
    + rewrite matchPairs_cons by assumption. cbn [map].
      rewrite (parseInt16_pair c1 c2 h l H1 H2), IH1. reflexivity.
    + constructor; [lia|assumption].
    + intros c. cbn [app]. rewrite !matchPairs_cons by assumption.
      rewrite IH3. reflexivity.
Qed.

Lemma getBytesFromHex_hexPairs (s : str) (v : Z) (vals : list Z) :
  Spec.hexPairs s = Some (v :: vals) ->
  CognitoSRP.getBytesFromHex s = Return (map (fun v => toUint8 (Some v)) (v :: vals)) /\
  forall c : ascii, CognitoSRP.getBytesFromHex (s ++ [c]) = CognitoSRP.getBytesFromHex s.
Proof.
  intros Hs. destruct (matchPairs_hexPairs s _ Hs) as (Hm & _ & Hodd).
  unfold CognitoSRP.getBytesFromHex, matchAllPairs. split.
  - destruct (matchPairs s) as [|p ps]; [discriminate|]. rewrite Hm. reflexivity.
  - intros c. rewrite Hodd. reflexivity.
Qed.

Lemma unsignedValue_bytes (vals : list Z) :
  Forall (fun v => 0 <= v < 256) vals ->
  map byteValue (map (fun v => toUint8 (Some v)) vals) = vals.
Proof.
  induction 1 as [|v vals Hv _ IH]; [reflexivity|].
  cbn [map]. rewrite byteValue_toUint8, IH by assumption. reflexivity.
Qed.

Lemma decodeSigned_signedValue (s : str) (z : Z) :
  Spec.decodeSigned s = Some z ->
  exists bytes, CognitoSRP.getBytesFromHex s = Return bytes /\ bytes <> [] /\
                Encoding.signedValue bytes = z.
Proof.
  unfold Spec.decodeSigned.
  destruct (Spec.hexPairs s) as [[|v vals]|] eqn:Hs; try discriminate.
  intros [= <-].
  destruct (getBytesFromHex_hexPairs s v vals Hs) as (Hb & _).
  destruct (matchPairs_hexPairs s _ Hs) as (_ & Hr & _).
  eexists; split; [exact Hb|]. split; [discriminate|].
  inversion Hr as [|? ? Hv Hvals]; subst.
  unfold Encoding.signedValue, Encoding.unsignedValue. cbn [map length].
  rewrite (byteValue_toUint8 v Hv), (unsignedValue_bytes vals Hvals), length_map.
  reflexivity.
Qed.

Lemma byteDigits_value (bytes : list byte) :
  hexValue (byteDigits bytes) = Encoding.unsignedValue bytes.
Proof.
  unfold Encoding.unsignedValue.
  induction bytes as [|b bytes IH]; [reflexivity|].
  destruct (getHexFromBytes_digits bytes) as (_ & _ & Hlen).
  pose proof (byteValue_range b) as Hb.
  change (byteDigits (b :: bytes))
    with (byteValue b / 16 :: byteValue b mod 16 :: byteDigits bytes).
  cbn [map]. rewrite bytesValue_cons, !hexValue_cons, IH. cbn [length].
  rewrite length_map, Hlen.
  replace (Z.of_nat (S (2 * length bytes))) with (Z.succ (2 * Z.of_nat (length bytes))) by lia.
  replace (Z.of_nat (2 * length bytes)) with (2 * Z.of_nat (length bytes)) by lia.
  rewrite Z.pow_succ_r, Z.pow_mul_r by lia. change (16 ^ 2) with 256.
  pose proof (Z.div_mod (byteValue b) 16 ltac:(lia)). nia.
Qed.

Lemma BigInt0x_getHexFromBytes (bytes : list byte) :
  bytes <> [] ->
  BigInt0x (CognitoSRP.getHexFromBytes bytes) = Some (Encoding.unsignedValue bytes).
Proof.
  intros Hne. destruct (getHexFromBytes_digits bytes) as (Heq & Hr & Hlen).
  rewrite Heq, BigInt0x_allHex, digitsOf_hexDigit, byteDigits_value; trivial.
  - destruct bytes; [contradiction|discriminate].
  - apply allHex_hexDigit. assumption.
Qed.

Lemma unsignedValue_range (bytes : list byte) :
  0 <= Encoding.unsignedValue bytes < 2 ^ (8 * Z.of_nat (length bytes)).
Proof.
  destruct (getHexFromBytes_digits bytes) as (_ & Hr & Hlen).
  rewrite <- byteDigits_value.
  pose proof (hexValue_bound _ Hr) as Hb. rewrite Hlen in Hb.
  replace (8 * Z.of_nat (length bytes)) with (4 * Z.of_nat (2 * length bytes)) by lia.
  rewrite Z.pow_mul_r by lia. exact Hb.
Qed.

Lemma BigInt0x_toString16 (n : Z) : 0 <= n -> BigInt0x (toString16 n) = Some n.
Proof.
  intros Hn. destruct (hexDigits_spec n Hn) as (Hr & Hv & Hne & _).
  rewrite toString16_nonneg, BigInt0x_allHex, digitsOf_hexDigit, Hv; trivial.
  - destruct (hexDigits n); [contradiction|discriminate].
  - apply allHex_hexDigit. assumption.
Qed.

Lemma getPaddedHex_hashed (v : Z) :
  exists (s : str) (bytes : list byte),
    CognitoSRP.getPaddedHex v = Return s /\
    CognitoSRP.getBytesFromHex s = Return bytes /\
    bytes <> [] /\ Encoding.signedValue bytes = v.
Proof.
  destruct (getPaddedHex_decodes v) as (s & Hs & Hd).
  destruct (decodeSigned_signedValue s v Hd) as (bytes & Hb & Hne & Hv).
  exists s, bytes. auto.
Qed.

End Bytes.

(** X1. [toZn a n] is the residue of [a] in [[0, n)] for [n >= 1], also
    for a negative [a]; for [n < 1] it throws a [RangeError]. *)
Theorem toZn_contract (a n : Z) :
  (1 <= n -> toZn a n = Return (a mod n) /\ 0 <= a mod n < n) /\
  (n < 1 -> toZn a n = Throw (RangeError (lit "n must be > 0"))).
Proof.
  split.
  - intros Hn. split; [apply toZn_mod; assumption|apply Z.mod_pos_bound; lia].
  - intros Hn. unfold toZn. destruct (Z.ltb_spec n 1); [reflexivity|lia].
Qed.

Lemma toZn_contract_witness :
  (toZn (-7) 5 = Return ((-7) mod 5) /\ 0 <= (-7) mod 5 < 5) /\
  toZn 3 0 = Throw (RangeError (lit "n must be > 0")).
Proof.
  split.
  - apply (proj1 (toZn_contract (-7) 5)). lia.
  - apply (proj2 (toZn_contract 3 0)). lia.
Defined.

Lemma modInv_reduces (fuel : nat) (a n : Z) :
  1 <= n -> modInv fuel a n = modInv fuel (a mod n) n.
Proof.
  intros Hn. unfold modInv. rewrite !toZn_mod by assumption.
  rewrite Z.mod_mod by lia. reflexivity.
Qed.

(** X3. [modInv] has no answer for a multiple of the modulus, nor for the
    modulus 1: the reduced argument is 0 and [eGcd] rejects it; a modulus
    below 1 is rejected by [toZn].  No fuel is needed for these errors. *)
Theorem modInv_domain (fuel : nat) (a n : Z) :
  (1 <= n -> a mod n = 0 ->
   modInv fuel a n = Throw (RangeError (lit "a and b must be > 0"))) /\
  (n = 1 -> modInv fuel a n = Throw (RangeError (lit "a and b must be > 0"))) /\
  (n < 1 -> modInv fuel a n = Throw (RangeError (lit "n must be > 0"))).
Proof.
  assert (Hzero : 1 <= n -> a mod n = 0 ->
                  modInv fuel a n = Throw (RangeError (lit "a and b must be > 0"))).
  { intros Hn Hz. unfold modInv. rewrite toZn_mod, Hz by assumption. reflexivity. }
  split; [exact Hzero|]. split.
  - intros ->. apply Hzero; [lia|apply Z.mod_1_r].
  - intros Hn. unfold modInv, toZn. destruct (Z.ltb_spec n 1); [reflexivity|lia].
Qed.

Lemma modInv_domain_witness :
  modInv 0 14 7 = Throw (RangeError (lit "a and b must be > 0")) /\
  modInv 0 5 1 = Throw (RangeError (lit "a and b must be > 0")) /\
  modInv 0 5 0 = Throw (RangeError (lit "n must be > 0")).
Proof.
  split; [|split].
  - apply (proj1 (modInv_domain 0 14 7)); [lia|reflexivity].
  - apply (proj1 (proj2 (modInv_domain 0 5 1))). reflexivity.
  - apply (proj2 (proj2 (modInv_domain 0 5 0))). lia.
Defined.

Lemma calculateS_value (fuel : nat) (this : CognitoSRP.engine) (x B U a' : Z) :
  CognitoSRP.a this = Some a' ->
  0 <= x -> 0 <= a' + U * x ->
  x < 2 ^ Z.of_nat fuel -> a' + U * x < 2 ^ Z.of_nat fuel ->
  CognitoSRP.calculateS fuel this x B U
  = Return ((B - CognitoSRP.g ^ x mod CognitoSRP.N * CognitoSRP.k this)
              ^ (a' + U * x) mod CognitoSRP.N).
Proof.
  intros Ha Hx Ht Hfx Hft. pose proof N_gt_1 as HN.
  unfold CognitoSRP.calculateS.
  rewrite modPow_nonneg by assumption. cbn [bind].
  rewrite Ha. cbn [CognitoSRP.fromOption bind].
  rewrite modPow_nonneg by assumption. reflexivity.
Qed.

(** X13. Key agreement: when the server's value is
    [B = (k * v + g ^ b) mod N] for the verifier [v = g ^ x mod N] and a
    server exponent [b], [calculateS] returns [(A * v ^ u) ^ b mod N], the
    secret that the server derives from [A = g ^ a mod N]. *)
Theorem calculateS_agrees_with_verifier
    (fuel : nat) (this : CognitoSRP.engine) (x U a' b : Z) :
  CognitoSRP.a this = Some a' ->
  0 <= a' -> 0 <= x -> 0 <= U -> 0 <= b ->
  x < 2 ^ Z.of_nat fuel -> a' + U * x < 2 ^ Z.of_nat fuel ->
  CognitoSRP.calculateS fuel this x
    ((CognitoSRP.k this * (CognitoSRP.g ^ x mod CognitoSRP.N) + CognitoSRP.g ^ b)
       mod CognitoSRP.N) U
  = Return (((CognitoSRP.g ^ a' mod CognitoSRP.N)
             * (CognitoSRP.g ^ x mod CognitoSRP.N) ^ U) ^ b mod CognitoSRP.N).
Proof.
  intros Ha Ha0 Hx HU Hb Hfx Hft. pose proof N_gt_1 as HN.
  rewrite (calculateS_value fuel this x _ U a') by (try assumption; nia).
  f_equal.
  set (g := CognitoSRP.g). set (n := CognitoSRP.N) in *. set (k := CognitoSRP.k this).
  assert (Ht : 0 <= a' + U * x) by nia.
  assert (Hclient : (((k * (g ^ x mod n) + g ^ b) mod n - g ^ x mod n * k) mod n)
                    = g ^ b mod n).
  { rewrite Zminus_mod_idemp_l. f_equal. ring. }
  assert (Hserver : ((g ^ a' mod n) * (g ^ x mod n) ^ U) mod n
                    = g ^ (a' + U * x) mod n).
  { rewrite Zmult_mod, Z.mod_mod, Z.mod_pow_l, <- Zmult_mod by lia.
    rewrite <- Z.pow_mul_r, <- Z.pow_add_r by nia. do 2 f_equal. ring. }
  rewrite <- (Z.mod_pow_l (_ - _)), Hclient, Z.mod_pow_l.
  rewrite <- (Z.mod_pow_l (_ * _)), Hserver, Z.mod_pow_l.
  rewrite <- !Z.pow_mul_r by nia. do 2 f_equal. ring.
Qed.

Lemma calculateS_agrees_with_verifier_witness :
  CognitoSRP.calculateS 5 Sample.challenged 3
    ((CognitoSRP.k Sample.challenged * (CognitoSRP.g ^ 3 mod CognitoSRP.N)
      + CognitoSRP.g ^ 4) mod CognitoSRP.N) 2
  = Return (((CognitoSRP.g ^ 5 mod CognitoSRP.N)
             * (CognitoSRP.g ^ 3 mod CognitoSRP.N) ^ 2) ^ 4 mod CognitoSRP.N).
Proof.
  apply (calculateS_agrees_with_verifier 5 Sample.challenged 3 2 5 4);
    [reflexivity|lia|lia|lia|lia|reflexivity|reflexivity].
Defined.

Lemma eGcdLoop_exit (fuel : nat) (b s t u v : Z) :
  eGcdLoop fuel 0 b s t u v = Return {| g := b; x := s; y := t |}.
Proof. destruct fuel; reflexivity. Qed.

Lemma eGcdLoop_step (fuel : nat) (a b s t u v : Z) :
  a <> 0 ->
  eGcdLoop (S fuel) a b s t u v
  = eGcdLoop fuel (Z.rem b a) a u v (s - u * Z.quot b a) (t - v * Z.quot b a).
Proof.
  intros Ha. cbn [eGcdLoop]. destruct (Z.eqb_spec a 0); [contradiction|reflexivity].
Qed.

(** A run of the loop of [eGcd] that ends has kept the Bezout equations. *)
Lemma eGcdLoop_sound (a0 b0 : Z) :
  forall (fuel : nat) (a b s t u v : Z) (r : egcdResult),
    0 <= a -> 0 <= b ->
    b = a0 * s + b0 * t -> a = a0 * u + b0 * v ->
    Z.gcd a b = Z.gcd a0 b0 ->
    eGcdLoop fuel a b s t u v = Return r ->
    BigIntUtils.g r = Z.gcd a0 b0 /\
    BigIntUtils.g r = a0 * BigIntUtils.x r + b0 * BigIntUtils.y r.
Proof.
  induction fuel as [|fuel IH]; intros a b s t u v r Ha Hb Hb' Ha' Hgcd;
    destruct (Z.eq_dec a 0) as [Hz|Hne].
  - rewrite Hz, eGcdLoop_exit. intros [= <-]. cbn.
    rewrite Hz, Z.gcd_0_l, Z.abs_eq in Hgcd by assumption. split; [assumption|lia].
  - cbn [eGcdLoop]. destruct (Z.eqb_spec a 0); [contradiction|discriminate].
  - rewrite Hz, eGcdLoop_exit. intros [= <-]. cbn.
    rewrite Hz, Z.gcd_0_l, Z.abs_eq in Hgcd by assumption. split; [assumption|lia].
  - rewrite eGcdLoop_step by assumption.
    rewrite rem_nonneg_mod, quot_nonneg_div by lia.
    pose proof (Z.mod_pos_bound b a ltac:(lia)) as Hr.
    pose proof (Z.div_mod b a ltac:(lia)) as Hdm.
    apply IH; try lia.
    rewrite Z.gcd_mod by lia. assumption.
Qed.

(** Two turns of the loop at least halve its first variable. *)
Lemma eGcdLoop_fast :
  forall (n fuel : nat) (a b s t u v : Z),
    0 <= a < 2 ^ Z.of_nat n -> 0 <= b -> (2 * n <= fuel)%nat ->
    exists r, eGcdLoop fuel a b s t u v = Return r.
Proof.
  induction n as [|n IH]; intros fuel a b s t u v Ha Hb Hfuel.
  - assert (a = 0) by (cbn in Ha; lia). subst a.
    rewrite eGcdLoop_exit. eexists; reflexivity.
  - destruct (Z.eq_dec a 0) as [->|Hne]; [rewrite eGcdLoop_exit; eexists; reflexivity|].
    destruct fuel as [|[|fuel]]; try lia.
    rewrite eGcdLoop_step by assumption.
    rewrite rem_nonneg_mod, quot_nonneg_div by lia.
    pose proof (Z.mod_pos_bound b a ltac:(lia)) as Hr.
    destruct (Z.eq_dec (b mod a) 0) as [Hz|Hnz];
      [rewrite Hz, eGcdLoop_exit; eexists; reflexivity|].
    rewrite eGcdLoop_step by assumption.
    rewrite rem_nonneg_mod, quot_nonneg_div by lia.
    pose proof (Z.mod_pos_bound a (b mod a) ltac:(lia)) as Hr2.
    pose proof (Z.div_mod a (b mod a) ltac:(lia)) as Hdm.
    assert (Hq : 1 <= a / (b mod a)) by (apply Z.div_le_lower_bound; lia).
    rewrite Nat2Z.inj_succ, Z.pow_succ_r in Ha by lia.
    apply IH; try lia. nia.
Qed.

Lemma eGcd_fast_spec (fuel : nat) (a b : Z) :
  1 <= a -> 1 <= b -> 2 * (Z.log2 a + 1) <= Z.of_nat fuel ->
  exists r, eGcd fuel a b = Return r /\
            BigIntUtils.g r = Z.gcd a b /\
            BigIntUtils.g r = a * BigIntUtils.x r + b * BigIntUtils.y r.
Proof.
  intros Ha Hb Hfuel. unfold eGcd.
  destruct (Z.ltb_spec a 1); [lia|]. destruct (Z.ltb_spec b 1); [lia|]. cbn [orb].
  pose proof (Z.log2_nonneg a) as HL.
  destruct (eGcdLoop_fast (Z.to_nat (Z.log2 a + 1)) fuel a b 0 1 1 0) as (r & Hr);
    try lia.
  { rewrite Z2Nat.id by lia. pose proof (Z.log2_spec a ltac:(lia)) as [_ Hup].
    replace (Z.log2 a + 1) with (Z.succ (Z.log2 a)) by lia. lia. }
  exists r. split; [exact Hr|].
  eapply (eGcdLoop_sound a b); try exact Hr; lia.
Qed.

(** [modInv] on a residue, given that [eGcd] returns on it. *)
Lemma modInv_of_eGcd (fuel : nat) (p m : Z) :
  1 < m -> 0 <= p < m ->
  (1 <= p ->
   exists r, eGcd fuel p m = Return r /\
             BigIntUtils.g r = Z.gcd p m /\
             BigIntUtils.g r = p * BigIntUtils.x r + m * BigIntUtils.y r) ->
  (Z.gcd p m = 1 ->
   exists r, modInv fuel p m = Return r /\ 0 <= r < m /\ (r * p) mod m = 1) /\
  (Z.gcd p m <> 1 -> exists msg, modInv fuel p m = Throw (RangeError msg)).
Proof.
  intros Hm Hp Hegcd. unfold modInv.
  rewrite toZn_mod, Z.mod_small by lia. cbn [bind].
  destruct (Z.eq_dec p 0) as [->|Hne].
  - rewrite eGcd_domain by lia. cbn [bind]. split.
    + rewrite Z.gcd_0_l, Z.abs_eq by lia. lia.
    + intros _. eexists; reflexivity.
  - destruct (Hegcd ltac:(lia)) as (r & -> & Hg & Hbez). cbn [bind]. rewrite Hg.
    split; intros Hgcd.
    + rewrite Hgcd in *. cbn [Z.eqb Pos.eqb negb].
      rewrite toZn_mod by lia.
      eexists; split; [reflexivity|]. split; [apply Z.mod_pos_bound; lia|].
      rewrite Zmult_mod_idemp_l.
      replace (BigIntUtils.x r * p) with (1 + (- BigIntUtils.y r) * m) by lia.
      rewrite Z.mod_add, Z.mod_small; lia.
    + destruct (Z.eqb_spec (Z.gcd p m) 1); [contradiction|]. cbn [negb].
      eexists; reflexivity.
Qed.

Lemma log2_residue (p m : Z) : 0 <= p < m -> Z.log2 p <= Z.log2 m.
Proof. intros Hp. apply Z.log2_le_mono. lia. Qed.

(** X4. [eGcd] needs only logarithmically many turns: with fuel for two
    turns per bit of [a], it returns [g = gcd a b] and Bezout coefficients
    for every [a >= 1] and [b >= 1]. *)
Theorem eGcd_logarithmic (fuel : nat) (a b : Z) :
  1 <= a -> 1 <= b -> 2 * (Z.log2 a + 1) <= Z.of_nat fuel ->
  exists r, eGcd fuel a b = Return r /\
            BigIntUtils.g r = Z.gcd a b /\
            BigIntUtils.g r = a * BigIntUtils.x r + b * BigIntUtils.y r.
Proof.
  apply eGcd_fast_spec.
Qed.

Lemma eGcd_logarithmic_witness :
  exists r, eGcd 20 1000 7 = Return r /\
            BigIntUtils.g r = Z.gcd 1000 7 /\
            BigIntUtils.g r = 1000 * BigIntUtils.x r + 7 * BigIntUtils.y r.
Proof.
  apply (eGcd_logarithmic 20 1000 7); [lia|lia|vm_compute; discriminate].
Defined.

(** X5. For an exponent [e < 0] and a modulus [m > 1], [modPow] needs one
    unit of fuel for its recursive call, then the bits of [- e] and two
    turns per bit of [m]: with them it returns the inverse of
    [modPow b (- e) m] when [gcd b m = 1] and throws a [RangeError]
    otherwise. *)
Theorem modPow_negative_exponent_fast (fuel : nat) (b e m : Z) :
  e < 0 -> 1 < m -> - e < 2 ^ Z.of_nat fuel ->
  2 * (Z.log2 m + 1) <= Z.of_nat fuel ->
  (Z.gcd b m = 1 ->
   exists r p, modPow (S fuel) b e m = Return r /\
               modPow (S fuel) b (- e) m = Return p /\
               0 <= r < m /\ (r * p) mod m = 1) /\
  (Z.gcd b m <> 1 -> exists msg, modPow (S fuel) b e m = Throw (RangeError msg)).
Proof.
  intros He Hm Hbits Hturns.
  assert (Hrun : modPow (S fuel) b e m = modInv fuel ((b ^ (- e)) mod m) m).
  { cbn [modPow].
    destruct (Z.ltb_spec m 1); [lia|]. destruct (Z.eqb_spec m 1); [lia|].
    rewrite toZn_mod by lia. cbn [bind].
    destruct (Z.ltb_spec e 0); [|lia].
    rewrite Z.geb_leb. destruct (Z.leb_spec 0 e); [lia|].
    rewrite modPow_nonneg by lia. rewrite Z.mod_pow_l. reflexivity. }
  pose proof (Z.mod_pos_bound (b ^ (- e)) m ltac:(lia)) as Hp.
  destruct (modInv_of_eGcd fuel (b ^ (- e) mod m) m Hm Hp) as (Hinv & Hnone).
  { intros Hp1. apply eGcd_fast_spec; try lia.
    pose proof (log2_residue _ _ Hp). lia. }
  split; intros Hgcd.
  - destruct Hinv as (r & Hr & Hrange & Hprod).
    { apply gcd_pow_mod_coprime; lia. }
    exists r, (b ^ (- e) mod m). split; [congruence|]. split; [|split; assumption].
    apply modPow_nonneg; try lia.
    rewrite Nat2Z.inj_succ, Z.pow_succ_r by lia. lia.
  - destruct Hnone as (msg & Hmsg).
    { apply gcd_pow_mod_common; lia. }
    exists msg. congruence.
Qed.

Lemma modPow_negative_exponent_fast_witness :
  (Z.gcd 3 1000003 = 1 ->
   exists r p, modPow 41 3 (-5) 1000003 = Return r /\
               modPow 41 3 (- -5) 1000003 = Return p /\
               0 <= r < 1000003 /\ (r * p) mod 1000003 = 1) /\
  (Z.gcd 3 1000003 <> 1 ->
   exists msg, modPow 41 3 (-5) 1000003 = Throw (RangeError msg)).
Proof.
  apply (modPow_negative_exponent_fast 40 3 (-5) 1000003);
    [lia|lia|reflexivity|vm_compute; discriminate].
Defined.

(** X6. [getBytesFromHex] undoes [getHexFromBytes] on every non-empty byte
    array; the empty array is printed as the empty string, on which
    [getBytesFromHex] throws, as it does on every string of fewer than two
    characters. *)
Theorem hex_bytes_roundtrip :
  (forall bytes : list byte,
      bytes <> [] ->
      CognitoSRP.getBytesFromHex (CognitoSRP.getHexFromBytes bytes) = Return bytes) /\
  CognitoSRP.getBytesFromHex (CognitoSRP.getHexFromBytes [])
  = Throw (JsError (lit "Invalid Hex String.")) /\
  (forall s : str,
      (length s < 2)%nat ->
      CognitoSRP.getBytesFromHex s = Throw (JsError (lit "Invalid Hex String."))).
Proof.
  split; [exact getBytesFromHex_getHexFromBytes|]. split; [reflexivity|].
  intros [|c [|c' s]] Hlen; try reflexivity. cbn [length] in Hlen. lia.
Qed.

Lemma hex_bytes_roundtrip_witness :
  CognitoSRP.getBytesFromHex (CognitoSRP.getHexFromBytes [x00; x0a; xff])
  = Return [x00; x0a; xff] /\
  CognitoSRP.getBytesFromHex (lit "a") = Throw (JsError (lit "Invalid Hex String.")).
Proof.
  destruct hex_bytes_roundtrip as (Hround & _ & Hshort). split.
  - apply (Hround [x00; x0a; xff]). discriminate.
  - apply (Hshort (lit "a")). cbn. lia.
Defined.

(** X7. On a non-empty string made of pairs of hex digits, of either case,
    [getBytesFromHex] returns the bytes that the pairs denote, and one more
    character at the end, whatever it is, changes nothing: it is dropped
    without an error. *)
Theorem getBytesFromHex_pairs (s : str) (vals : list Z) :
  Spec.hexPairs s = Some vals -> s <> [] ->
  exists bytes,
    CognitoSRP.getBytesFromHex s = Return bytes /\
    map byteValue bytes = vals /\
    forall c : ascii, CognitoSRP.getBytesFromHex (s ++ [c]) = Return bytes.
Proof.
  intros Hs Hne.
  destruct vals as [|v vals].
  { destruct s as [|c1 [|c2 s]]; [contradiction|discriminate|].
    cbn [Spec.hexPairs] in Hs.
    destruct (hexDigitValue c1), (hexDigitValue c2), (Spec.hexPairs s); discriminate. }
  destruct (getBytesFromHex_hexPairs s v vals Hs) as (Hb & Hodd).
  destruct (matchPairs_hexPairs s _ Hs) as (_ & Hr & _).
  eexists. split; [exact Hb|]. split.
  - apply unsignedValue_bytes. assumption.
  - intros c. rewrite Hodd. exact Hb.
Qed.

Lemma getBytesFromHex_pairs_witness :
  exists bytes,
    CognitoSRP.getBytesFromHex (lit "0aFF") = Return bytes /\
    map byteValue bytes = [10; 255] /\
    forall c : ascii, CognitoSRP.getBytesFromHex (lit "0aFF" ++ [c]) = Return bytes.
Proof.
  apply (getBytesFromHex_pairs (lit "0aFF") [10; 255]); [reflexivity|discriminate].
Defined.

(** X8. The bytes that are hashed for an integer: for every [v],
    [getBytesFromHex (getPaddedHex v)] is a non-empty byte array whose
    value as a big-endian two's-complement integer is [v]. *)
Theorem getPaddedHex_bytes (v : Z) :
  exists (s : str) (bytes : list byte),
    CognitoSRP.getPaddedHex v = Return s /\
    CognitoSRP.getBytesFromHex s = Return bytes /\
    bytes <> [] /\ Encoding.signedValue bytes = v.
Proof.
  exact (getPaddedHex_hashed v).
Qed.

(** X11. [calculateSRPAValue] on a non-empty random buffer, with fuel for
    its bits: [a] is the unsigned big-endian value of the buffer,
    [A = g ^ a mod N] lies in [[1, N)], both are stored and the other
    fields kept, and the string returned reads back as [A].  On an empty
    buffer the call throws a [SyntaxError] and stores nothing. *)
Theorem calculateSRPAValue_state
    (fuel : nat) (buffer : list byte) (this : CognitoSRP.engine) :
  (buffer <> [] -> (8 * length buffer <= fuel)%nat ->
   exists A',
     A' = CognitoSRP.g ^ Encoding.unsignedValue buffer mod CognitoSRP.N /\
     1 <= A' < CognitoSRP.N /\
     CognitoSRP.calculateSRPAValue fuel buffer this
     = (Return (toString16 A'),
        {| CognitoSRP.userPoolName := CognitoSRP.userPoolName this;
           CognitoSRP.k := CognitoSRP.k this;
           CognitoSRP.a := Some (Encoding.unsignedValue buffer);
           CognitoSRP.A := Some A';
           CognitoSRP.timestamp := CognitoSRP.timestamp this |}) /\
     BigInt0x (toString16 A') = Some A') /\
  (buffer = [] ->
   CognitoSRP.calculateSRPAValue fuel buffer this = (Throw SyntaxError, this)).
Proof.
  split.
  - intros Hne Hfuel. pose proof N_gt_1 as HN.
    pose proof (unsignedValue_range buffer) as Ha.
    eexists. split; [reflexivity|].
    pose proof (Z.mod_pos_bound (CognitoSRP.g ^ Encoding.unsignedValue buffer)
                  CognitoSRP.N ltac:(lia)) as HA.
    pose proof (g_pow_mod_N (Encoding.unsignedValue buffer) ltac:(lia)) as Hnz.
    rewrite Z.mod_mod in Hnz by lia.
    split; [lia|]. split.
    + unfold CognitoSRP.calculateSRPAValue.
      rewrite BigInt0x_getHexFromBytes by assumption.
      rewrite modPow_nonneg; [reflexivity|lia|exact HN|].
      eapply Z.lt_le_trans; [exact (proj2 Ha)|].
      apply Z.pow_le_mono_r; lia.
    + apply BigInt0x_toString16. lia.
  - intros ->. reflexivity.
Qed.

Lemma calculateSRPAValue_state_witness :
  (exists A',
     A' = CognitoSRP.g ^ Encoding.unsignedValue Sample.buffer5 mod CognitoSRP.N /\
     1 <= A' < CognitoSRP.N /\
     CognitoSRP.calculateSRPAValue 128 Sample.buffer5 Sample.challenged
     = (Return (toString16 A'),
        {| CognitoSRP.userPoolName := CognitoSRP.userPoolName Sample.challenged;
           CognitoSRP.k := CognitoSRP.k Sample.challenged;
           CognitoSRP.a := Some (Encoding.unsignedValue Sample.buffer5);
           CognitoSRP.A := Some A';
           CognitoSRP.timestamp := CognitoSRP.timestamp Sample.challenged |}) /\
     BigInt0x (toString16 A') = Some A') /\
  CognitoSRP.calculateSRPAValue 0 [] Sample.challenged
  = (Throw SyntaxError, Sample.challenged).
Proof.
  split.
  - apply (proj1 (calculateSRPAValue_state 128 Sample.buffer5 Sample.challenged));
      [discriminate|cbn; lia].
  - apply (proj2 (calculateSRPAValue_state 0 [] Sample.challenged)). reflexivity.
Defined.

Lemma pow16_pow2 (n : Z) : 0 <= n -> 16 ^ n = 2 ^ (4 * n).
Proof. intros Hn. rewrite Z.pow_mul_r by lia. reflexivity. Qed.

Lemma pow2_lt_inv (a b : Z) : 0 <= b -> 2 ^ a < 2 ^ b -> a < b.
Proof. intros Hb H. apply (Z.pow_lt_mono_r_iff 2); lia. Qed.

(** Number of digits and leading digit of a positive integer, from the
    position of its top bit. *)
Lemma hexDigits_log2 (v : Z) :
  0 < v ->
  exists (d : Z) (ds : list Z),
    hexDigits v = d :: ds /\ 0 <= d < 16 /\
    4 * Z.of_nat (length ds) <= Z.log2 v < 4 * Z.of_nat (length ds) + 4 /\
    (8 <= d <-> Z.log2 v = 4 * Z.of_nat (length ds) + 3).
Proof.
  intros Hv.
  destruct (hexDigits_spec v ltac:(lia)) as (Hr & Hval & Hne & Hhd).
  destruct (hexDigits v) as [|d ds]; [contradiction|].
  specialize (Hhd Hv). cbn [hd] in Hhd.
  pose proof (hexValue_leading d ds Hr) as Hl. rewrite Hval in Hl.
  pose proof (Forall_inv Hr) as Hd. cbn beta in Hd.
  exists d, ds. split; [reflexivity|]. split; [assumption|].
  pose proof (Z.log2_spec v Hv) as [Hlo Hhi].
  pose proof (Z.log2_nonneg v) as HL.
  remember (Z.log2 v) as L eqn:EL. remember (Z.of_nat (length ds)) as n eqn:En.
  assert (Hn : 0 <= n) by lia.
  rewrite (pow16_pow2 n Hn) in Hl.
  assert (Hpos : 0 < 2 ^ (4 * n)) by (apply Z.pow_pos_nonneg; lia).
  assert (H16 : 2 ^ (4 * n + 4) = 16 * 2 ^ (4 * n)).
  { rewrite Z.pow_add_r by lia. change (2 ^ 4) with 16. ring. }
  assert (H8 : 2 ^ (4 * n + 3) = 8 * 2 ^ (4 * n)).
  { rewrite Z.pow_add_r by lia. change (2 ^ 3) with 8. ring. }
  assert (Hlow : 4 * n < Z.succ L).
  { apply pow2_lt_inv; [lia|]. nia. }
  assert (Hup : L < 4 * n + 4).
  { apply pow2_lt_inv; [lia|]. rewrite H16. nia. }
  split; [lia|]. split.
  - intros Hd8. assert (4 * n + 3 < Z.succ L); [|lia].
    apply pow2_lt_inv; [lia|]. rewrite H8. nia.
  - intros HL3. rewrite HL3, H8 in Hlo. nia.
Qed.

(** X9. For [v >= 0] the encoding is the shortest two's-complement one:
    its number of bytes is the bit length of [v], divided by 8, plus 1, as
    the sign bit asks, and [getPaddedHex v] has twice as many characters. *)
Theorem getPaddedHex_length (v : Z) :
  0 <= v ->
  exists s : str,
    CognitoSRP.getPaddedHex v = Return s /\
    Z.of_nat (length s) = 2 * ((if v =? 0 then 0 else Z.log2 v + 1) / 8 + 1).
Proof.
  intros Hv. rewrite getPaddedHex_nonneg by assumption.
  eexists. split; [reflexivity|]. rewrite length_map.
  destruct (Z.eqb_spec v 0) as [->|Hnz]; [reflexivity|].
  destruct (hexDigits_log2 v ltac:(lia)) as (d & ds & -> & Hd & HL & Hd8).
  pose proof (Z.div_mod (Z.log2 v + 1) 8 ltac:(lia)) as Hdiv.
  pose proof (Z.mod_pos_bound (Z.log2 v + 1) 8 ltac:(lia)) as Hmod.
  unfold Spec.evenDigits, Spec.signDigits. cbn [length].
  rewrite Nat.even_succ, <- Nat.negb_even.
  destruct (Nat.even (length ds)) eqn:Hev; cbn [negb].
  - (* an odd number of digits: one 0 in front *)
    apply Nat.even_spec in Hev as [j Hj].
    change (8 <=? 0) with false. cbv iota. cbn [length]. lia.
  - (* an even number of digits *)
    assert (Hodd : Nat.odd (length ds) = true)
      by (rewrite <- Nat.negb_even, Hev; reflexivity).
    apply Nat.odd_spec in Hodd as [j Hj].
    destruct (Z.leb_spec 8 d) as [Hge|Hlt]; cbn [length].
    + apply Hd8 in Hge. lia.
    + assert (Z.log2 v <> 4 * Z.of_nat (length ds) + 3) by (intros H; apply Hd8 in H; lia).
      lia.
Qed.

Lemma getPaddedHex_length_witness :
  exists s : str,
    CognitoSRP.getPaddedHex 32768 = Return s /\
    Z.of_nat (length s) = 2 * ((if 32768 =? 0 then 0 else Z.log2 32768 + 1) / 8 + 1).
Proof.
  apply (getPaddedHex_length 32768). lia.
Defined.




(** A property of every integer of a range, checked on each of them. *)
Lemma range_check (P : Z -> bool) (lo count : Z) :
  forallb (fun k => P (lo + Z.of_nat k)) (seq 0 (Z.to_nat count)) = true ->
  forall n : Z, lo <= n < lo + count -> P n = true.
Proof.
  intros Hall n Hn. rewrite forallb_forall in Hall.
  specialize (Hall (Z.to_nat (n - lo))).
  replace (lo + Z.of_nat (Z.to_nat (n - lo))) with n in Hall by lia.
  apply Hall, in_seq. lia.
Qed.

Lemma two_digits (n : Z) :
  0 <= n < 60 -> length (padStart2 (decimal n)) = 2%nat.
Proof.
  intros Hn.
  apply Nat.eqb_eq.
  apply (range_check (fun n => Nat.eqb (length (padStart2 (decimal n))) 2) 0 60);
    [vm_compute; reflexivity|lia].
Qed.

Lemma day_digits (n : Z) :
  1 <= n < 32 -> length (decimal n) = if n <? 10 then 1%nat else 2%nat.
Proof.
  intros Hn. apply Nat.eqb_eq.
  apply (range_check
           (fun n => Nat.eqb (length (decimal n)) (if n <? 10 then 1 else 2)) 1 31);
    [vm_compute; reflexivity|lia].
Qed.

Lemma year_digits (n : Z) :
  1000 <= n < 10000 -> length (decimal n) = 4%nat.
Proof.
  intros Hn. apply Nat.eqb_eq.
  apply (range_check (fun n => Nat.eqb (length (decimal n)) 4) 1000 9000);
    [vm_compute; reflexivity|lia].
Qed.

Lemma name_length (names : list str) (i : Z) :
  forallb (fun s => Nat.eqb (length s) 3) names = true ->
  0 <= i < Z.of_nat (length names) ->
  length (nth (Z.to_nat i) names (lit "undefined")) = 3%nat.
Proof.
  intros Hall Hi. rewrite forallb_forall in Hall.
  apply Nat.eqb_eq, Hall, nth_In. lia.
Qed.

Lemma two_digits_value (n : Z) :
  0 <= n < 60 -> Timestamp.decimalValue (padStart2 (decimal n)) = Some n.
Proof.
  intros Hn.
  pose proof (range_check
    (fun n => match Timestamp.decimalValue (padStart2 (decimal n)) with
              | Some v => v =? n
              | None => false
              end) 0 60 ltac:(vm_compute; reflexivity) n Hn) as Hv.
  cbv beta in Hv.
  destruct (Timestamp.decimalValue (padStart2 (decimal n))) as [v|]; [|discriminate].
  apply Z.eqb_eq in Hv. congruence.
Qed.

Lemma decimal_value (n : Z) :
  0 <= n < 10000 -> Timestamp.decimalValue (decimal n) = Some n.
Proof.
  intros Hn.
  pose proof (range_check
    (fun n => match Timestamp.decimalValue (decimal n) with
              | Some v => v =? n
              | None => false
              end) 0 10000 ltac:(vm_compute; reflexivity) n Hn) as Hv.
  cbv beta in Hv.
  destruct (Timestamp.decimalValue (decimal n)) as [v|]; [|discriminate].
  apply Z.eqb_eq in Hv. congruence.
Qed.

Lemma day_name (i : Z) :
  0 <= i < 7 ->
  In (i, nth (Z.to_nat i)
           (map lit ["Sun"; "Mon"; "Tue"; "Wed"; "Thu"; "Fri"; "Sat"]%string)
           (lit "undefined"))
     Timestamp.dayNames.
Proof.
  intros Hi.
  assert (Hcases : i = 0 \/ i = 1 \/ i = 2 \/ i = 3 \/ i = 4 \/ i = 5 \/ i = 6) by lia.
  repeat (destruct Hcases as [->|Hcases];
          [repeat (first [left; reflexivity|right])|]).
  subst i. repeat (first [left; reflexivity|right]).
Qed.

Lemma month_name (i : Z) :
  0 <= i < 12 ->
  In (i, nth (Z.to_nat i)
           (map lit ["Jan"; "Feb"; "Mar"; "Apr"; "May"; "Jun"; "Jul"; "Aug"; "Sep"; "Oct";
                     "Nov"; "Dec"]%string)
           (lit "undefined"))
     Timestamp.monthNames.
Proof.
  intros Hi.
  assert (Hcases : i = 0 \/ i = 1 \/ i = 2 \/ i = 3 \/ i = 4 \/ i = 5 \/ i = 6 \/
                   i = 7 \/ i = 8 \/ i = 9 \/ i = 10 \/ i = 11) by lia.
  repeat (destruct Hcases as [->|Hcases];
          [repeat (first [left; reflexivity|right])|]).
  subst i. repeat (first [left; reflexivity|right]).
Qed.

(** X16. For the fields of an actual date (a year of four digits),
    [createTimestamp] yields [Dow Mon D HH:MM:SS UTC YYYY]: the names of
    the day of the week and of the month, then the day of the month
    without a leading zero, the hours, minutes and seconds on two digits
    each, in this order, and the year; every number reads back to the
    field it prints. *)
Theorem createTimestamp_format (now : Date) :
  0 <= getUTCDay now < 7 -> 0 <= getUTCMonth now < 12 ->
  1 <= getUTCDate now < 32 ->
  0 <= getUTCHours now < 24 -> 0 <= getUTCMinutes now < 60 ->
  0 <= getUTCSeconds now < 60 ->
  1000 <= getUTCFullYear now < 10000 ->
  exists weekDay month date hours minutes seconds year : str,
    CognitoSRP.createTimestamp now
    = weekDay ++ lit " " ++ month ++ lit " " ++ date ++ lit " " ++ hours ++ lit ":" ++
      minutes ++ lit ":" ++ seconds ++ lit " UTC " ++ year /\
    In (getUTCDay now, weekDay) Timestamp.dayNames /\
    In (getUTCMonth now, month) Timestamp.monthNames /\
    Timestamp.decimalValue date = Some (getUTCDate now) /\
    Timestamp.decimalValue hours = Some (getUTCHours now) /\
    Timestamp.decimalValue minutes = Some (getUTCMinutes now) /\
    Timestamp.decimalValue seconds = Some (getUTCSeconds now) /\
    Timestamp.decimalValue year = Some (getUTCFullYear now) /\
    length weekDay = 3%nat /\ length month = 3%nat /\
    length date = (if getUTCDate now <? 10 then 1%nat else 2%nat) /\
    length hours = 2%nat /\ length minutes = 2%nat /\ length seconds = 2%nat /\
    length year = 4%nat /\
    Z.of_nat (length (CognitoSRP.createTimestamp now))
    = if getUTCDate now <? 10 then 27 else 28.
Proof.
  intros Hday Hmonth Hdate Hh Hm Hs Hy.
  unfold CognitoSRP.createTimestamp. cbv zeta. fold decimal.
  fold (decimal (getUTCDate now)) (decimal (getUTCHours now))
       (decimal (getUTCMinutes now)) (decimal (getUTCSeconds now))
       (decimal (getUTCFullYear now)).
  pose proof (name_length
    (map lit ["Sun"; "Mon"; "Tue"; "Wed"; "Thu"; "Fri"; "Sat"]%string)
    (getUTCDay now) eq_refl ltac:(cbn; lia)) as Hwd.
  pose proof (name_length
    (map lit ["Jan"; "Feb"; "Mar"; "Apr"; "May"; "Jun"; "Jul"; "Aug"; "Sep"; "Oct";
              "Nov"; "Dec"]%string)
    (getUTCMonth now) eq_refl ltac:(cbn; lia)) as Hmo.
  pose proof (day_digits _ Hdate) as Hd.
  pose proof (two_digits (getUTCHours now) ltac:(lia)) as Hhh.
  pose proof (two_digits _ Hm) as Hmm. pose proof (two_digits _ Hs) as Hss.
  pose proof (year_digits _ Hy) as Hyy.
  pose proof (day_name _ Hday) as Hwn. pose proof (month_name _ Hmonth) as Hmn.
  pose proof (decimal_value (getUTCDate now) ltac:(lia)) as Hdv.
  pose proof (two_digits_value (getUTCHours now) ltac:(lia)) as Hhv.
  pose proof (two_digits_value _ Hm) as Hmv. pose proof (two_digits_value _ Hs) as Hsv.
  pose proof (decimal_value (getUTCFullYear now) ltac:(lia)) as Hyv.
  do 7 eexists. split; [reflexivity|].
  repeat (split; [assumption|]).
  rewrite !length_app, Hwd, Hmo, Hd, Hhh, Hmm, Hss, Hyy.
  destruct (getUTCDate now <? 10); reflexivity.
Qed.

Lemma createTimestamp_format_witness :
  exists weekDay month date hours minutes seconds year : str,
    CognitoSRP.createTimestamp Sample.now
    = weekDay ++ lit " " ++ month ++ lit " " ++ date ++ lit " " ++ hours ++ lit ":" ++
      minutes ++ lit ":" ++ seconds ++ lit " UTC " ++ year /\
    In (getUTCDay Sample.now, weekDay) Timestamp.dayNames /\
    In (getUTCMonth Sample.now, month) Timestamp.monthNames /\
    Timestamp.decimalValue date = Some (getUTCDate Sample.now) /\
    Timestamp.decimalValue hours = Some (getUTCHours Sample.now) /\
    Timestamp.decimalValue minutes = Some (getUTCMinutes Sample.now) /\
    Timestamp.decimalValue seconds = Some (getUTCSeconds Sample.now) /\
    Timestamp.decimalValue year = Some (getUTCFullYear Sample.now) /\
    length weekDay = 3%nat /\ length month = 3%nat /\
    length date = (if getUTCDate Sample.now <? 10 then 1%nat else 2%nat) /\
    length hours = 2%nat /\ length minutes = 2%nat /\ length seconds = 2%nat /\
    length year = 4%nat /\
    Z.of_nat (length (CognitoSRP.createTimestamp Sample.now))
    = if getUTCDate Sample.now <? 10 then 27 else 28.
Proof.
  apply (createTimestamp_format Sample.now); cbn; lia.
Defined.

Section Signature.

Context (E : Externals).

(** SHA-256 digests have 32 bytes. *)
Hypothesis digest32 :
  forall (secret : option SourceData) (data : SourceData),
    length (sha256 secret data) = 32%nat.

Lemma digest_value (secret : option SourceData) (data : SourceData) :
  BigInt0x (CognitoSRP.getHexFromBytes (CognitoSRP.createHash data secret))
  = Some (Encoding.unsignedValue (sha256 secret data)) /\
  0 <= Encoding.unsignedValue (sha256 secret data) < 2 ^ 256.
Proof.
  unfold CognitoSRP.createHash. split.
  - apply BigInt0x_getHexFromBytes. intros Hnil.
    pose proof (digest32 secret data) as Hlen. rewrite Hnil in Hlen. discriminate.
  - pose proof (unsignedValue_range (sha256 secret data)) as Hr.
    rewrite digest32 in Hr. exact Hr.
Qed.

Lemma calculateU_range (this : CognitoSRP.engine) (B U : Z) :
  CognitoSRP.calculateU this B = Return U -> 0 < U < 2 ^ 256.
Proof.
  unfold CognitoSRP.calculateU.
  destruct (CognitoSRP.A this) as [A'|]; [|discriminate]. cbn [CognitoSRP.fromOption bind].
  destruct (CognitoSRP.getPaddedHex A') as [hexA| |]; try discriminate. cbn [bind].
  destruct (CognitoSRP.getPaddedHex B) as [hexB| |]; try discriminate. cbn [bind].
  destruct (CognitoSRP.getBytesFromHex (hexA ++ hexB)) as [bytes| |]; try discriminate.
  cbn [bind].
  destruct (digest_value None (SDBytes bytes)) as (-> & Hr).
  cbn [CognitoSRP.fromOption bind].
  destruct (Z.eqb_spec (Encoding.unsignedValue (sha256 None (SDBytes bytes))) 0);
    [discriminate|].
  intros [= <-]. lia.
Qed.

End Signature.

Lemma getBytesFromHex_prefix (s t : str) (z : Z) :
  Spec.decodeSigned s = Some z ->
  exists bytes, CognitoSRP.getBytesFromHex (s ++ t) = Return bytes.
Proof.
  unfold Spec.decodeSigned.
  destruct s as [|c1 [|c2 s]]; cbn [Spec.hexPairs]; try discriminate.
  destruct (hexDigitValue c1) as [h|] eqn:H1; [|discriminate].
  destruct (hexDigitValue c2) as [l|] eqn:H2; [|discriminate].
  intros _.
  destruct (hexDigit_char c1 h H1) as (_ & Hlt1 & _).
  destruct (hexDigit_char c2 l H2) as (_ & Hlt2 & _).
  unfold CognitoSRP.getBytesFromHex, matchAllPairs. cbn [app].
  rewrite matchPairs_cons by assumption. eexists. reflexivity.
Qed.

Lemma urlB64ToUint8Array_outcome (E : Externals) (s : str) :
  (exists bytes, CognitoSRP.urlB64ToUint8Array s = Return bytes) \/
  CognitoSRP.urlB64ToUint8Array s = Throw InvalidCharacterError.
Proof.
  unfold CognitoSRP.urlB64ToUint8Array.
  destruct (atob _); [left; eexists; reflexivity|right; reflexivity].
Qed.

(** X14. With 32-byte digests, an exponent [a] below [2 ^ 128] and 513
    turns of fuel: once [SRP_B] and [SALT] are read, [B mod N <> 0] and
    [calculateU] has returned, the call returns a signature, unless
    [SECRET_BLOCK] does not decode, in which case it throws
    [InvalidCharacterError]; it never runs out of fuel. *)
Theorem signature_outcome
    (E : Externals) (fuel : nat) (now : Date) (password : str)
    (cp : CognitoSRP.challengeParameters) (this : CognitoSRP.engine)
    (a' B U salt : Z) :
  (forall (secret : option SourceData) (data : SourceData),
      length (sha256 secret data) = 32%nat) ->
  CognitoSRP.a this = Some a' -> 0 <= a' < 2 ^ 128 ->
  BigInt0x (CognitoSRP.SRP_B cp) = Some B -> B mod CognitoSRP.N <> 0 ->
  CognitoSRP.calculateU this B = Return U ->
  BigInt0x (CognitoSRP.SALT cp) = Some salt ->
  (513 <= fuel)%nat ->
  match CognitoSRP.urlB64ToUint8Array (CognitoSRP.SECRET_BLOCK cp) with
  | Return _ =>
      exists signature,
        fst (CognitoSRP.calculatePasswordClaimSignature fuel now password cp this)
        = Return signature
  | Throw e =>
      e = InvalidCharacterError /\
      fst (CognitoSRP.calculatePasswordClaimSignature fuel now password cp this) = Throw e
  | OutOfFuel => False
  end.
Proof.
  intros Hdigest Ha Ha' HB HBN HU Hsalt Hfuel.
  pose proof (BigInt0x_nonneg _ _ HB) as HB0. pose proof N_gt_1 as HN.
  pose proof (calculateU_range E Hdigest this B U HU) as HUr.
  unfold CognitoSRP.calculatePasswordClaimSignature. cbn [fst].
  set (this1 := {| CognitoSRP.userPoolName := CognitoSRP.userPoolName this;
                   CognitoSRP.k := CognitoSRP.k this;
                   CognitoSRP.a := CognitoSRP.a this;
                   CognitoSRP.A := CognitoSRP.A this;
                   CognitoSRP.timestamp := Some (CognitoSRP.createTimestamp now) |}).
  rewrite HB. cbn [CognitoSRP.fromOption bind].
  rewrite rem_nonneg_mod by lia.
  destruct (Z.eqb_spec (B mod CognitoSRP.N) 0); [contradiction|].
  rewrite (calculateU_reads_A E this1 this B) by reflexivity.
  rewrite HU. cbn [bind]. rewrite Hsalt. cbn [CognitoSRP.fromOption bind]. cbv zeta.
  destruct (getPaddedHex_decodes salt) as (hexSalt & -> & HdSalt). cbn [bind].
  match goal with
  | |- context [CognitoSRP.getBytesFromHex (hexSalt ++ ?t)] =>
      destruct (getBytesFromHex_prefix hexSalt t salt HdSalt) as (saltedBytes & ->)
  end.
  cbn [bind].
  destruct (digest_value E Hdigest None (SDBytes saltedBytes)) as (-> & Hx).
  cbn [CognitoSRP.fromOption bind].
  set (x := Encoding.unsignedValue (sha256 None (SDBytes saltedBytes))) in *.
  assert (Hpow : 2 ^ 513 <= 2 ^ Z.of_nat fuel) by (apply Z.pow_le_mono_r; lia).
  assert (Hx513 : x < 2 ^ 513).
  { eapply Z.lt_le_trans; [exact (proj2 Hx)|]. apply Z.pow_le_mono_r; lia. }
  assert (Ht : 0 <= a' + U * x < 2 ^ 513).
  { split; [nia|].
    assert (U * x <= (2 ^ 256 - 1) * (2 ^ 256 - 1)) by (apply Z.mul_le_mono_nonneg; lia).
    change (2 ^ 513) with (2 * (2 ^ 256 * 2 ^ 256)).
    assert (2 ^ 128 <= 2 ^ 256) by (apply Z.pow_le_mono_r; lia). lia. }
  rewrite (calculateS_value fuel this1 x B U a') by (try exact Ha; lia).
  cbn [bind].
  destruct (urlB64ToUint8Array_outcome E (CognitoSRP.SECRET_BLOCK cp))
    as [(secretBlock & ->)| ->]; cbn [bind].
  - match goal with
    | |- context [CognitoSRP.getPaddedHex ?S] =>
        destruct (getPaddedHex_hashed S) as (hexS & bytesS & HhexS & HbytesS & _)
    end.
    rewrite HhexS. cbn [bind]. rewrite HbytesS. cbn [bind].
    destruct (getPaddedHex_hashed U) as (hexU & bytesU & HhexU & HbytesU & _).
    rewrite HhexU. cbn [bind]. rewrite HbytesU. cbn [bind].
    eexists. reflexivity.
  - split; reflexivity.
Qed.

Lemma signature_outcome_witness :
  exists signature,
    fst (CognitoSRP.calculatePasswordClaimSignature (H := Sample.unitHash)
           513 Sample.now (lit "pw") (Sample.challenge "abcd" "1f") Sample.challenged)
    = Return signature.
Proof.
  apply (signature_outcome Sample.unitHash 513 Sample.now (lit "pw")
           (Sample.challenge "abcd" "1f") Sample.challenged 5 43981 1 31);
    try reflexivity; try lia.
  vm_compute. discriminate.
Defined.

(** X2. For a modulus [n > 1] and any integer [a], with fuel for two turns
    of Euclid's loop per bit of [n]: when [gcd a n = 1], [modInv a n] is
    the inverse of [a] modulo [n] in [[0, n)]; otherwise it throws a
    [RangeError]. *)
Theorem modInv_contract (fuel : nat) (a n : Z) :
  1 < n -> 2 * (Z.log2 n + 1) <= Z.of_nat fuel ->
  (Z.gcd a n = 1 ->
   exists r, modInv fuel a n = Return r /\ 0 <= r < n /\ (a * r) mod n = 1) /\
  (Z.gcd a n <> 1 -> exists msg, modInv fuel a n = Throw (RangeError msg)).
Proof.
  intros Hn Hfuel. rewrite modInv_reduces by lia.
  pose proof (Z.mod_pos_bound a n ltac:(lia)) as Hp.
  destruct (modInv_of_eGcd fuel (a mod n) n Hn Hp) as (Hinv & Hnone).
  { intros Hp1. apply eGcd_fast_spec; try lia.
    pose proof (log2_residue _ _ Hp). lia. }
  rewrite Z.gcd_mod_l in Hinv, Hnone.
  split; intros Hgcd.
  - destruct (Hinv Hgcd) as (r & Hr & Hrange & Hprod).
    exists r. split; [assumption|]. split; [assumption|].
    rewrite <- Zmult_mod_idemp_l, Z.mul_comm. assumption.
  - apply Hnone. assumption.
Qed.

Lemma modInv_contract_witness :
  (Z.gcd (-3) 7 = 1 ->
   exists r, modInv 6 (-3) 7 = Return r /\ 0 <= r < 7 /\ (-3 * r) mod 7 = 1) /\
  (Z.gcd (-3) 7 <> 1 -> exists msg, modInv 6 (-3) 7 = Throw (RangeError msg)).
Proof.
  apply (modInv_contract 6 (-3) 7); [lia|vm_compute; discriminate].
Defined.

Lemma construct_fields (E : Externals) (userPoolName : str) (this : CognitoSRP.engine) :
  CognitoSRP.construct userPoolName = Return this ->
  CognitoSRP.userPoolName this = userPoolName /\ CognitoSRP.a this = None /\
  CognitoSRP.A this = None /\ CognitoSRP.timestamp this = None /\
  CognitoSRP.initK = Return (CognitoSRP.k this).
Proof.
  unfold CognitoSRP.construct.
  destruct CognitoSRP.initK as [k| |]; cbn [bind]; try discriminate.
  intros [= <-]. repeat split.
Qed.

(** X12. On an instance as the constructor leaves it, before
    [calculateSRPAValue] has stored [A], a call of
    [calculatePasswordClaimSignature] whose [SRP_B] passes the check of [B]
    throws a [TypeError]. *)
Theorem signature_needs_public_value
    (E : Externals) (fuel : nat) (now : Date) (userPoolName password : str)
    (cp : CognitoSRP.challengeParameters) (this : CognitoSRP.engine) (B : Z) :
  CognitoSRP.construct userPoolName = Return this ->
  BigInt0x (CognitoSRP.SRP_B cp) = Some B -> B mod CognitoSRP.N <> 0 ->
  fst (CognitoSRP.calculatePasswordClaimSignature fuel now password cp this)
  = Throw TypeError.
Proof.
  intros Hnew HB HBN.
  destruct (construct_fields E userPoolName this Hnew) as (_ & _ & HA & _).
  destruct (signature_after_B E fuel now password cp this B HB) as (_ & Hu & _).
  apply Hu; [assumption|].
  unfold CognitoSRP.calculateU. rewrite HA. reflexivity.
Qed.

Lemma signature_needs_public_value_witness :
  fst (CognitoSRP.calculatePasswordClaimSignature (H := Sample.unitHash)
         0 Sample.now (lit "pw") (Sample.challenge "abcd" "1f")
         {| CognitoSRP.userPoolName := lit "pool"; CognitoSRP.k := 1;
            CognitoSRP.a := None; CognitoSRP.A := None;
            CognitoSRP.timestamp := None |})
  = Throw TypeError.
Proof.
  apply (signature_needs_public_value Sample.unitHash 0 Sample.now (lit "pool") (lit "pw")
           (Sample.challenge "abcd" "1f") _ 43981); try reflexivity.
  vm_compute. discriminate.
Defined.

Lemma initK_bytes :
  exists (hexN hexg : str) (bytes : list byte),
    CognitoSRP.getPaddedHex CognitoSRP.N = Return hexN /\
    CognitoSRP.getPaddedHex CognitoSRP.g = Return hexg /\
    CognitoSRP.getBytesFromHex (hexN ++ hexg) = Return bytes /\
    length bytes = 386%nat /\
    Encoding.unsignedValue bytes = CognitoSRP.N * 256 + 2.
Proof.
  do 3 eexists.
  split; [vm_compute; reflexivity|].
  split; [vm_compute; reflexivity|].
  split; [vm_compute; reflexivity|].
  split; vm_compute; reflexivity.
Qed.

(** X10. With 32-byte digests the constructor succeeds and leaves [a],
    [A] and the timestamp unset.  The multiplier [k] is the unsigned value
    of the digest of 386 bytes, the 385 bytes that encode [N] (a zero byte
    and its 384 bytes) followed by the byte 2 for [g]; so
    [0 <= k < 2 ^ 256]. *)
Theorem construct_returns (E : Externals) (userPoolName : str) :
  (forall (secret : option SourceData) (data : SourceData),
      length (sha256 secret data) = 32%nat) ->
  exists (bytes : list byte) (k : Z),
    length bytes = 386%nat /\
    Encoding.unsignedValue bytes = CognitoSRP.N * 256 + 2 /\
    k = Encoding.unsignedValue (sha256 None (SDBytes bytes)) /\
    0 <= k < 2 ^ 256 /\
    CognitoSRP.construct userPoolName
    = Return {| CognitoSRP.userPoolName := userPoolName; CognitoSRP.k := k;
                CognitoSRP.a := None; CognitoSRP.A := None;
                CognitoSRP.timestamp := None |}.
Proof.
  intros Hdigest. unfold CognitoSRP.construct, CognitoSRP.initK.
  destruct initK_bytes as (hexN & hexg & bytes & HN & Hg & Hb & Hlen & Hval).
  rewrite HN. cbn [bind]. rewrite Hg. cbn [bind]. rewrite Hb. cbn [bind].
  destruct (digest_value E Hdigest None (SDBytes bytes)) as (-> & Hk).
  cbn [CognitoSRP.fromOption bind].
  exists bytes, (Encoding.unsignedValue (sha256 None (SDBytes bytes))).
  repeat split; trivial; apply Hk.
Qed.

Lemma construct_returns_witness :
  exists (bytes : list byte) (k : Z),
    length bytes = 386%nat /\
    Encoding.unsignedValue bytes = CognitoSRP.N * 256 + 2 /\
    k = Encoding.unsignedValue (sha256 (Externals := Sample.unitHash) None (SDBytes bytes)) /\
    0 <= k < 2 ^ 256 /\
    CognitoSRP.construct (H := Sample.unitHash) (lit "pool")
    = Return {| CognitoSRP.userPoolName := lit "pool"; CognitoSRP.k := k;
                CognitoSRP.a := None; CognitoSRP.A := None;
                CognitoSRP.timestamp := None |}.
Proof.
  apply (construct_returns Sample.unitHash (lit "pool")). reflexivity.
Defined.

Lemma bigFromString16_bytes (bytes : list byte) :
  Legacy.bigFromString16 (CognitoSRP.getHexFromBytes bytes) = Encoding.unsignedValue bytes.
Proof.
  unfold Legacy.bigFromString16.
  destruct (getHexFromBytes_digits bytes) as (-> & Hr & _).
  rewrite digitsOf_hexDigit by assumption. apply byteDigits_value.
Qed.

Section Variants.

Context (E : Externals).
Variable bigModPow : Z -> Z -> Z -> exn + Z.

Hypothesis digest32 :
  forall (secret : option SourceData) (data : SourceData),
    length (sha256 secret data) = 32%nat.

Hypothesis bigModPow_contract :
  forall b e : Z, 0 <= e -> bigModPow b e CognitoSRP.N = inr (b ^ e mod CognitoSRP.N).

Lemma variants_calculateU
    (old : LegacyEngine.instance) (this : CognitoSRP.engine) (B : Z) :
  CognitoSRP.A this = Some (Legacy.A (LegacyEngine.core old)) ->
  0 <= Legacy.A (LegacyEngine.core old) -> 0 <= B ->
  LegacyEngine.calculateU old B = CognitoSRP.calculateU this B.
Proof.
  intros HA HA0 HB0.
  unfold LegacyEngine.calculateU, CognitoSRP.calculateU, LegacyEngine.createHash.
  rewrite HA. cbn [CognitoSRP.fromOption bind LegacyEngine.from LegacyEngine.to
                     LegacyEngine.secret].
  rewrite !getPaddedHex_nonneg_pad, !Legacy_getPaddedHex_pad by assumption.
  cbn [bind].
  destruct (CognitoSRP.getBytesFromHex (Spec.pad (Legacy.A (LegacyEngine.core old))
                                         ++ Spec.pad B)) as [bytes| |];
    cbn [bind]; try reflexivity.
  cbn [LegacyEngine.asString]. rewrite bigFromString16_bytes.
  destruct (digest_value E digest32 None (SDBytes bytes)) as (Hv & _).
  unfold CognitoSRP.createHash in *. rewrite Hv. reflexivity.
Qed.

End Variants.

(** X17. The two variants of the class compute the same thing: for hex
    strings [SRP_B] and [SALT] with [B mod N <> 0], on instances that hold
    the same [a], [A], [k] and pool name, with the timestamp and the [info]
    bytes that the [bigint] variant builds during the call, the outcome of
    the [BigInteger] variant (signature or thrown error) is the outcome of
    the [bigint] variant, provided the [modPow] of the missing module
    computes powers modulo [N]. *)
Theorem variants_agree
    (E : Externals) (bigModPow : Z -> Z -> Z -> exn + Z)
    (fuel : nat) (now : Date) (password : str)
    (cp : CognitoSRP.challengeParameters)
    (old : LegacyEngine.instance) (this : CognitoSRP.engine) :
  (forall (secret : option SourceData) (data : SourceData),
      length (sha256 secret data) = 32%nat) ->
  (forall b e : Z, 0 <= e -> bigModPow b e CognitoSRP.N = inr (b ^ e mod CognitoSRP.N)) ->
  CognitoSRP.userPoolName this = Legacy.userPoolName (LegacyEngine.core old) ->
  CognitoSRP.k this = Legacy.k (LegacyEngine.core old) ->
  CognitoSRP.a this = Some (Legacy.a (LegacyEngine.core old)) ->
  CognitoSRP.A this = Some (Legacy.A (LegacyEngine.core old)) ->
  0 <= Legacy.a (LegacyEngine.core old) < 2 ^ 128 ->
  0 <= Legacy.A (LegacyEngine.core old) ->
  LegacyEngine.timestamp old = CognitoSRP.createTimestamp now ->
  LegacyEngine.info old
  = CognitoSRP.concatenateArrays [encode (lit "Caldera Derived Key"); encode [ascii_of_N 1]] ->
  CognitoSRP.SRP_B cp <> [] -> forallb isHexDigit (CognitoSRP.SRP_B cp) = true ->
  CognitoSRP.SALT cp <> [] -> forallb isHexDigit (CognitoSRP.SALT cp) = true ->
  hexValue (digitsOf (CognitoSRP.SRP_B cp)) mod CognitoSRP.N <> 0 ->
  (513 <= fuel)%nat ->
  LegacyEngine.calculatePasswordClaimSignature bigModPow password cp old
  = fst (CognitoSRP.calculatePasswordClaimSignature fuel now password cp this).
Proof.
  intros Hdigest Hpow Hpool Hk Ha HA Ha' HA0 Htime Hinfo HBne HBhex HSne HShex HBN Hfuel.
  pose proof N_gt_1 as HN.
  pose proof (BigInt0x_allHex _ HBne HBhex) as HB.
  pose proof (BigInt0x_allHex _ HSne HShex) as Hsalt.
  pose proof (BigInt0x_nonneg _ _ HB) as HB0.
  pose proof (BigInt0x_nonneg _ _ Hsalt) as Hsalt0.
  change (hexValue (digitsOf (CognitoSRP.SRP_B cp)))
    with (Legacy.bigFromString16 (CognitoSRP.SRP_B cp)) in *.
  change (hexValue (digitsOf (CognitoSRP.SALT cp)))
    with (Legacy.bigFromString16 (CognitoSRP.SALT cp)) in *.
  unfold LegacyEngine.calculatePasswordClaimSignature,
    CognitoSRP.calculatePasswordClaimSignature, Legacy.bigMod.
  cbn [fst]. cbv zeta.
  set (B := Legacy.bigFromString16 (CognitoSRP.SRP_B cp)) in *.
  set (salt := Legacy.bigFromString16 (CognitoSRP.SALT cp)) in *.
  set (this1 := {| CognitoSRP.userPoolName := CognitoSRP.userPoolName this;
                   CognitoSRP.k := CognitoSRP.k this;
                   CognitoSRP.a := CognitoSRP.a this;
                   CognitoSRP.A := CognitoSRP.A this;
                   CognitoSRP.timestamp := Some (CognitoSRP.createTimestamp now) |}).
  rewrite HB, Hsalt. cbn [CognitoSRP.fromOption bind].
  rewrite rem_nonneg_mod by lia.
  destruct (Z.eqb_spec (B mod CognitoSRP.N) 0); [contradiction|].
  rewrite (variants_calculateU E Hdigest old this1 B) by assumption.
  destruct (CognitoSRP.calculateU this1 B) as [U| |] eqn:HU; cbn [bind]; try reflexivity.
  pose proof (calculateU_range E Hdigest this1 B U HU) as HUr.
  unfold LegacyEngine.createHash.
  cbn [bind LegacyEngine.from LegacyEngine.to LegacyEngine.secret LegacyEngine.asString
         LegacyEngine.asBytes CognitoSRP.userPoolName].
  change (CognitoSRP.userPoolName this1) with (CognitoSRP.userPoolName this).
  change (CognitoSRP.k this1) with (CognitoSRP.k this).
  rewrite !Legacy_getPaddedHex_pad, (getPaddedHex_nonneg_pad salt Hsalt0), Hpool.
  cbn [bind]. unfold CognitoSRP.createHash.
  match goal with
  | |- context [CognitoSRP.getBytesFromHex (Spec.pad salt ++ ?t)] =>
      destruct (CognitoSRP.getBytesFromHex (Spec.pad salt ++ t)) as [saltedBytes| |]
  end; cbn [bind LegacyEngine.asString]; try reflexivity.
  rewrite bigFromString16_bytes.
  destruct (digest_value E Hdigest None (SDBytes saltedBytes)) as (Hv & Hx).
  unfold CognitoSRP.createHash in Hv. rewrite Hv. cbn [CognitoSRP.fromOption bind].
  set (x := Encoding.unsignedValue (sha256 None (SDBytes saltedBytes))) in *.
  assert (Hpow2 : 2 ^ 513 <= 2 ^ Z.of_nat fuel) by (apply Z.pow_le_mono_r; lia).
  assert (Hx513 : x < 2 ^ 513).
  { eapply Z.lt_le_trans; [exact (proj2 Hx)|]. apply Z.pow_le_mono_r; lia. }
  assert (Ht : 0 <= Legacy.a (LegacyEngine.core old) + U * x < 2 ^ 513).
  { split; [nia|].
    assert (U * x <= (2 ^ 256 - 1) * (2 ^ 256 - 1)) by (apply Z.mul_le_mono_nonneg; lia).
    change (2 ^ 513) with (2 * (2 ^ 256 * 2 ^ 256)).
    assert (2 ^ 128 <= 2 ^ 256) by (apply Z.pow_le_mono_r; lia). lia. }
  rewrite (Legacy_calculateS_shared_secret bigModPow _ x B U Hpow) by lia.
  rewrite (calculateS_value fuel this1 x B U (Legacy.a (LegacyEngine.core old)))
    by (try exact Ha; lia).
  cbn [bind]. change (CognitoSRP.k this1) with (CognitoSRP.k this). rewrite Hk.
  replace (B - CognitoSRP.g ^ x mod CognitoSRP.N * Legacy.k (LegacyEngine.core old))
    with (B - Legacy.k (LegacyEngine.core old) * (CognitoSRP.g ^ x mod CognitoSRP.N))
    by ring.
  set (S := (B - Legacy.k (LegacyEngine.core old) * (CognitoSRP.g ^ x mod CognitoSRP.N))
              ^ (Legacy.a (LegacyEngine.core old) + U * x) mod CognitoSRP.N).
  assert (HS : 0 <= S) by (apply Z.mod_pos_bound; lia).
  destruct (CognitoSRP.urlB64ToUint8Array (CognitoSRP.SECRET_BLOCK cp))
    as [secretBlock| |]; cbn [bind]; try reflexivity.
  rewrite !Legacy_getPaddedHex_pad, (getPaddedHex_nonneg_pad S HS). cbn [bind].
  destruct (CognitoSRP.getBytesFromHex (Spec.pad S)) as [bytesS| |];
    cbn [bind]; try reflexivity.
  rewrite (getPaddedHex_nonneg_pad U) by lia. cbn [bind].
  destruct (CognitoSRP.getBytesFromHex (Spec.pad U)) as [bytesU| |];
    cbn [bind]; try reflexivity.
  rewrite Htime, Hinfo. reflexivity.
Qed.

Lemma variants_agree_witness :
  LegacyEngine.calculatePasswordClaimSignature (H := Sample.unitHash)
    SampleLegacy.powMod (lit "pw") (Sample.challenge "abcd" "1f") SampleLegacy.challenged
  = fst (CognitoSRP.calculatePasswordClaimSignature (H := Sample.unitHash)
           513 Sample.now (lit "pw") (Sample.challenge "abcd" "1f") Sample.challenged).
Proof.
  apply (variants_agree Sample.unitHash SampleLegacy.powMod 513 Sample.now (lit "pw")
           (Sample.challenge "abcd" "1f") SampleLegacy.challenged Sample.challenged);
    try (intros; reflexivity); try discriminate; cbn; lia.
Defined.
